(** * CardIQ retrieval core: chunker and RAG index

    A shallow embedding of [utils/pdf_processor.py] (PDFProcessor.chunk_text)
    and [rag/rag_system.py] (RAGSystem), with the properties of the
    retrieval subsystem stated and settled against it.

    Conventions.
    - A Python [str] is a list of characters; characters are the code
      points below 256, so [strip] and [lower] follow Python's tables on
      that range.
    - Python [int] is [Z] where the value may be negative (sizes passed
      by the caller, FAISS labels) and [nat] for lengths and counters
      that only count up from zero.
    - Floating-point values are rationals ([Q]).  The vectors and the
      distances FAISS computes from them are exact; the float32
      arithmetic of [search], [1.0 / (1.0 + distance)], is rounded to
      nearest, ties to even, as NumPy does it ([Float32]).
    - A call either returns or raises: [outcome]. *)

From Stdlib Require Import String Ascii List ZArith QArith Lia Bool Arith.
From Stdlib Require Import DecimalString Permutation Sorted Qround Lqa.
Import ListNotations.

Local Open Scope nat_scope.

(** ** Python strings *)

Module Py.

Definition str := list ascii.

Definition lit (s : string) : str := list_ascii_of_string s.

Inductive exn :=
  ValueError | AssertionError | IndexError | RuntimeError | UnpicklingError
| AttributeError | OSError.

Inductive outcome (A : Type) :=
| Returned (a : A)
| Raised (e : exn).
Arguments Returned {A} a.
Arguments Raised {A} e.

(** [str.isspace] on one character: TAB..CR, FS..US, space, NEL, NBSP. *)
Definition is_space (c : ascii) : bool :=
  let n := nat_of_ascii c in
  ((9 <=? n) && (n <=? 13)) || ((28 <=? n) && (n <=? 32))
  || (n =? 133) || (n =? 160).

Fixpoint lstrip (s : str) : str :=
  match s with
  | [] => []
  | c :: s' => if is_space c then lstrip s' else s
  end.

Definition rstrip (s : str) : str := rev (lstrip (rev s)).

(** [s.strip()] *)
Definition strip (s : str) : str := rstrip (lstrip s).

(** [s.replace('\n', ' ')] *)
Definition replace_newline (s : str) : str :=
  map (fun c => if Ascii.eqb c "010"%char then " "%char else c) s.

Definition cons_head (c : ascii) (parts : list str) : list str :=
  match parts with
  | [] => [[c]]
  | p :: ps => (c :: p) :: ps
  end.

(** [s.split('. ')]: left-to-right, non-overlapping occurrences of the
    two-character separator; always at least one part. *)
Fixpoint split_dot_space (s : str) : list str :=
  match s with
  | [] => [[]]
  | c :: s' =>
      match s' with
      | d :: s'' =>
          if Ascii.eqb c "."%char && Ascii.eqb d " "%char
          then [] :: split_dot_space s''
          else cons_head c (split_dot_space s')
      | [] => cons_head c (split_dot_space s')
      end
  end.

(** [s[start:]] with Python's treatment of negative and out-of-range
    starts. *)
Definition slice_from (start : Z) (s : str) : str :=
  let n := Z.of_nat (length s) in
  if (start <? 0)%Z
  then skipn (Z.to_nat (Z.max 0 (n + start))) s
  else skipn (Z.to_nat start) s.

(** The last [n] characters of [s] (all of [s] when it is shorter). *)
Definition last_chars (n : nat) (s : str) : str := skipn (length s - n) s.

(** [str.lower] on one character: A-Z and the Latin-1 capitals. *)
Definition lower_char (c : ascii) : ascii :=
  let n := nat_of_ascii c in
  if ((65 <=? n) && (n <=? 90))
     || ((192 <=? n) && (n <=? 222) && negb (n =? 215))
  then ascii_of_nat (n + 32) else c.

Definition lower (s : str) : str := map lower_char s.

Fixpoint starts_with (p s : str) : bool :=
  match p, s with
  | [], _ => true
  | _ :: _, [] => false
  | a :: p', b :: s' => Ascii.eqb a b && starts_with p' s'
  end.

(** [needle in hay] *)
Fixpoint contains (needle hay : str) : bool :=
  starts_with needle hay ||
  match hay with
  | [] => false
  | _ :: hay' => contains needle hay'
  end.

(** [l[i]] for a Python list: negative indices count from the end. *)
Definition getitem {A : Type} (l : list A) (i : Z) : outcome A :=
  let n := Z.of_nat (length l) in
  let j := if (i <? 0)%Z then (n + i)%Z else i in
  if (j <? 0)%Z then Raised IndexError
  else match nth_error l (Z.to_nat j) with
       | Some a => Returned a
       | None => Raised IndexError
       end.

End Py.

Import Py.

(** ** utils/pdf_processor.py *)

Module Chunk.
Record t := mk { chunk_id : nat; text : str; length : nat }.
End Chunk.

Module PDFProcessor.

Record loop_state := {
  chunks : list Chunk.t;
  current_chunk : str;
  chunk_id : nat
}.

Definition init_state : loop_state :=
  {| chunks := []; current_chunk := []; chunk_id := 0 |}.

(** The dictionary appended at either emission site. *)
Definition emit (st : loop_state) : Chunk.t :=
  Chunk.mk (chunk_id st) (strip (current_chunk st)) (length (current_chunk st)).

Definition nonempty (s : str) : bool :=
  match s with [] => false | _ => true end.

(** One iteration of [for sentence in sentences]. *)
Definition step (chunk_size overlap : Z) (st : loop_state) (sentence0 : str)
  : loop_state :=
  let sentence := strip sentence0 ++ lit ". " in
  if (Z.of_nat (length (current_chunk st)) + Z.of_nat (length sentence)
        >? chunk_size)%Z
     && nonempty (current_chunk st)
  then {| chunks := chunks st ++ [emit st];
          current_chunk := slice_from (- overlap) (current_chunk st) ++ sentence;
          chunk_id := chunk_id st + 1 |}
  else {| chunks := chunks st;
          current_chunk := current_chunk st ++ sentence;
          chunk_id := chunk_id st |}.

Definition finish (st : loop_state) : list Chunk.t :=
  if nonempty (current_chunk st) then chunks st ++ [emit st] else chunks st.

Definition sentences_of (text : str) : list str :=
  split_dot_space (replace_newline text).

Definition chunk_text (text : str) (chunk_size overlap : Z) : list Chunk.t :=
  finish (fold_left (step chunk_size overlap) (sentences_of text) init_state).

(** The call as the caller sees it: [chunk_text] has no [raise] and no
    operation that can fail on a [str] and two [int]s. *)
Definition chunk_text_call (text : str) (chunk_size overlap : Z)
  : outcome (list Chunk.t) :=
  Returned (chunk_text text chunk_size overlap).

End PDFProcessor.

(** ** External libraries, as the program uses them *)

Definition vec := list Q.

(** A NumPy array as [encode] returns it: one-dimensional (shape [(n,)])
    or two-dimensional (shape [(n, ncols)]). *)
Inductive ndarray :=
| Array1 (data : list Q)
| Array2 (ncols : nat) (rows : list vec).

(** [faiss.IndexFlatL2] through its Python wrapper.  [add] appends the
    rows of a two-dimensional array in order; it unpacks [n, d = x.shape]
    (a [ValueError] on a one-dimensional array) and asserts [d == self.d].
    [search] answers every query row with exactly [k] labels and
    distances, nearest first (here: equal distances in storage order);
    when fewer than [k] vectors are stored the remaining labels are [-1]
    and the remaining distances the largest float32. *)
Module Faiss.

Record IndexFlatL2 := { d : nat; xb : list vec }.

Definition new (dim : nat) : IndexFlatL2 := {| d := dim; xb := [] |}.

Definition ntotal (idx : IndexFlatL2) : nat := length (xb idx).

Definition add (idx : IndexFlatL2) (x : ndarray) : outcome IndexFlatL2 :=
  match x with
  | Array1 _ => Raised ValueError
  | Array2 ncols rows =>
      if ncols =? d idx
      then Returned {| d := d idx; xb := xb idx ++ rows |}
      else Raised AssertionError
  end.

(** Squared Euclidean distance. *)
Fixpoint sqdist (a b : vec) : Q :=
  match a, b with
  | x :: a', y :: b' => (x - y) * (x - y) + sqdist a' b'
  | _, _ => 0
  end.

Definition FLT_MAX : Q := 340282346638528859811704183484516925440 # 1.

Fixpoint insert (x : Z * Q) (l : list (Z * Q)) : list (Z * Q) :=
  match l with
  | [] => [x]
  | y :: l' => if Qle_bool (snd x) (snd y) then x :: l else y :: insert x l'
  end.

Fixpoint sort (l : list (Z * Q)) : list (Z * Q) :=
  match l with
  | [] => []
  | x :: l' => insert x (sort l')
  end.

(** Every stored position with its distance to [q], in storage order. *)
Definition scored (idx : IndexFlatL2) (q : vec) : list (Z * Q) :=
  combine (map Z.of_nat (seq 0 (ntotal idx))) (map (sqdist q) (xb idx)).

(** The [k] labels and distances for one query row. *)
Definition knn (idx : IndexFlatL2) (k : nat) (q : vec) : list (Z * Q) :=
  let found := firstn k (sort (scored idx q)) in
  found ++ repeat ((-1)%Z, FLT_MAX) (k - length found).

(** [D, I = index.search(x, k)] *)
Definition search (idx : IndexFlatL2) (x : ndarray) (k : Z)
  : outcome (list (list Q) * list (list Z)) :=
  match x with
  | Array1 _ => Raised ValueError
  | Array2 ncols rows =>
      if negb (ncols =? d idx) then Raised AssertionError
      else if (k <=? 0)%Z then Raised AssertionError
      else let res := map (knn idx (Z.to_nat k)) rows in
           Returned (map (map snd) res, map (map fst) res)
  end.

End Faiss.

(** ** NumPy float32

    The distances FAISS returns are [numpy.float32] scalars, and
    [1.0 + distance] and [1.0 / ...] with a Python float on the left stay
    in float32: each operation yields the float32 value nearest to the
    exact result, ties to the even significand.  A float32 value is a
    multiple of [2^-149]; [round_units] rounds a non-negative number of
    such units to 24 significant bits. *)
Module Float32.

Local Open Scope Q_scope.

(** The integer nearest to [x], ties to even. *)
Definition rne (x : Q) : Z :=
  let f := Qfloor x in
  match (x - inject_Z f ?= 1 # 2)%Q with
  | Lt => f
  | Gt => (f + 1)%Z
  | Eq => if Z.even f then f else (f + 1)%Z
  end.

(** The spacing, in units, of the float32 values around [t] units:
    [1] up to [2^24] units (subnormals and the first binades), then
    doubling with every binade. *)
Definition exponent (t : Q) : Z := Z.max 0 (Z.log2 (Qfloor t) - 23).

Definition quantum (t : Q) : Z := (2 ^ exponent t)%Z.

Definition round_units (t : Q) : Z :=
  (rne (t / inject_Z (quantum t)) * quantum t)%Z.

Definition scale : Q := inject_Z (2 ^ 149).

(** The float32 nearest to [x], below the overflow threshold. *)
Definition round (x : Q) : Q :=
  if Qle_bool 0 x
  then inject_Z (round_units (x * scale)) / scale
  else - (inject_Z (round_units (- x * scale)) / scale).

(** From this value on a result rounds to [inf]: halfway between the
    largest float32, [2^128 - 2^104], and [2^128]. *)
Definition overflow : Q := inject_Z (2 ^ 128 - 2 ^ 103).

End Float32.

(** ** rag/rag_system.py *)

Module CardChunk.
Record t := mk {
  chunk_id : nat;
  text : str;
  length : nat;
  card_name : str;
  source_file : str
}.
End CardChunk.

Module Card.
Record t := mk {
  card_name : str;
  source_file : str;
  full_text_length : nat;
  num_chunks : nat;
  chunks : list CardChunk.t
}.
End Card.

(** A search result: the copied chunk with its two added keys. *)
Module SearchResult.
Record t := mk { chunk : CardChunk.t; score : Q; relevance : Q }.
End SearchResult.

Module RAGSystem.

(** A file of the embeddings directory, as its reader sees it. *)
Inductive blob (A : Type) :=
| Valid (a : A)
| Corrupt.
Arguments Valid {A} a.
Arguments Corrupt {A}.

(** The index file holds what [faiss.write_index] was given: an index,
    or the null index it writes for [None] and [faiss.read_index] reads
    back as [None]. *)
Record Disk := {
  faiss_index_bin : option (blob (option Faiss.IndexFlatL2));
  chunks_metadata_pkl : option (blob (list CardChunk.t))
}.

Record Self := {
  index : option Faiss.IndexFlatL2;
  chunks : list CardChunk.t;
  dimension : nat
}.

Record world := { self : Self; disk : Disk }.

(** Statements run in a world and either return or raise; the world
    carries every assignment made before a raise. *)
Definition M (A : Type) := world -> outcome A * world.

Definition ret {A} (a : A) : M A := fun w => (Returned a, w).

Definition bind {A B} (m : M A) (f : A -> M B) : M B :=
  fun w => match m w with
           | (Returned a, w') => f a w'
           | (Raised e, w') => (Raised e, w')
           end.

Definition lift {A} (o : outcome A) : M A := fun w => (o, w).

Definition get_self : M Self := fun w => (Returned (self w), w).

Definition set_index (i : option Faiss.IndexFlatL2) : M unit :=
  fun w => (Returned tt,
            {| self := {| index := i; chunks := chunks (self w);
                          dimension := dimension (self w) |};
               disk := disk w |}).

Definition set_chunks (cs : list CardChunk.t) : M unit :=
  fun w => (Returned tt,
            {| self := {| index := index (self w); chunks := cs;
                          dimension := dimension (self w) |};
               disk := disk w |}).

Definition get_disk : M Disk := fun w => (Returned (disk w), w).

Definition set_disk (dk : Disk) : M unit :=
  fun w => (Returned tt, {| self := self w; disk := dk |}).

Declare Scope rag_scope.
Delimit Scope rag_scope with rag.
Notation "x <- m ;; f" := (bind m (fun x => f))
  (at level 61, m at next level, right associativity) : rag_scope.
Notation "m ;; f" := (bind m (fun _ => f))
  (at level 61, right associativity) : rag_scope.
Local Open Scope rag_scope.

(** [__init__]: no index, no chunks, dimension 384. *)
Definition init : Self := {| index := None; chunks := []; dimension := 384 |}.

Section Model.

(** The sentence-transformer: [model_dim] is the width of its output and
    [embed] its value on one text.  [encode] is order-preserving, one row
    per text; on the empty list it returns [np.asarray([])], of shape
    [(0,)]. *)
Variable model_dim : nat.
Variable embed : str -> vec.

Definition encode (texts : list str) : ndarray :=
  match texts with
  | [] => Array1 []
  | _ :: _ => Array2 model_dim (map embed texts)
  end.

(** The two nested [for] loops of [create_embeddings]. *)
Definition collect_chunk (acc : list CardChunk.t * list str) (chunk : CardChunk.t)
  : list CardChunk.t * list str :=
  (fst acc ++ [chunk], snd acc ++ [CardChunk.text chunk]).

Definition collect_card (acc : list CardChunk.t * list str) (card : Card.t)
  : list CardChunk.t * list str :=
  fold_left collect_chunk (Card.chunks card) acc.

(** [save_index] does not look at [self.index]: with no index built,
    [faiss.write_index(None, ...)] writes a null index and returns, and
    the chunk list is pickled after it. *)
Definition save_index : M unit :=
  s <- get_self ;;
  dk <- get_disk ;;
  set_disk {| faiss_index_bin := Some (Valid (index s));
              chunks_metadata_pkl := chunks_metadata_pkl dk |} ;;
  set_disk {| faiss_index_bin := Some (Valid (index s));
              chunks_metadata_pkl := Some (Valid (chunks s)) |}.

Definition create_embeddings (processed_cards : list Card.t) : M unit :=
  set_chunks [] ;;
  let acc := fold_left collect_card processed_cards ([], []) in
  set_chunks (fst acc) ;;
  let texts := snd acc in
  let embeddings := encode texts in
  s <- get_self ;;
  let fresh := Faiss.new (dimension s) in
  set_index (Some fresh) ;;
  filled <- lift (Faiss.add fresh embeddings) ;;
  set_index (Some filled) ;;
  save_index.

Definition load_index : M bool :=
  dk <- get_disk ;;
  match faiss_index_bin dk, chunks_metadata_pkl dk with
  | Some fi, Some fc =>
      match fi with
      | Corrupt => lift (Raised RuntimeError)
      | Valid i =>
          set_index i ;;
          match fc with
          | Corrupt => lift (Raised UnpicklingError)
          | Valid cs =>
              set_chunks cs ;;
              (* print(f"... {self.index.ntotal} vectors") *)
              match i with
              | None => lift (Raised AttributeError)
              | Some _ => ret true
              end
          end
      end
  | _, _ => ret false
  end.

(** [1.0 / (1.0 + distance)] on a float32 [distance]: the sum is rounded,
    then the quotient.  A sum that overflows is [inf], and [1.0 / inf]
    is [0.0]. *)
Definition relevance_of (distance : Q) : Q :=
  if Qle_bool Float32.overflow (1 + distance) then 0
  else Float32.round (1 / Float32.round (1 + distance)).

(** [card_filter is None or card_filter.lower() in chunk['card_name'].lower()] *)
Definition passes (card_filter : option str) (chunk : CardChunk.t) : bool :=
  match card_filter with
  | None => true
  | Some f => contains (lower f) (lower (CardChunk.card_name chunk))
  end.

(** Truth value of [card_filter]: [None] and the empty string are false. *)
Definition truthy (card_filter : option str) : bool :=
  match card_filter with
  | None => false
  | Some [] => false
  | Some (_ :: _) => true
  end.

(** The body of [for idx, distance in zip(indices[0], distances[0])],
    with [results] as accumulated so far; [break] ends the loop. *)
Fixpoint collect_results (cs : list CardChunk.t) (k : Z) (card_filter : option str)
    (candidates : list (Z * Q)) (results : list SearchResult.t)
  : outcome (list SearchResult.t) :=
  match candidates with
  | [] => Returned results
  | (idx, distance) :: rest =>
      if (idx <? Z.of_nat (length cs))%Z then
        match getitem cs idx with
        | Raised e => Raised e
        | Returned c =>
            let r := SearchResult.mk c distance (relevance_of distance) in
            let results' :=
              if passes card_filter c then results ++ [r] else results in
            if (Z.of_nat (length results') >=? k)%Z then Returned results'
            else collect_results cs k card_filter rest results'
        end
      else collect_results cs k card_filter rest results
  end.

Definition search (query : str) (k : Z) (card_filter : option str)
  : M (list SearchResult.t) :=
  s <- get_self ;;
  match index s with
  | None => ret []
  | Some i =>
      let query_embedding := encode [query] in
      res <- lift (Faiss.search i query_embedding
                     (if negb (truthy card_filter) then k else k * 3)%Z) ;;
      let '(distances, indices) := res in
      i0 <- lift (getitem indices 0) ;;
      d0 <- lift (getitem distances 0) ;;
      lift (collect_results (chunks s) k card_filter (combine i0 d0) [])
  end.

End Model.

End RAGSystem.

Import RAGSystem.

(** A small corpus and a 384-wide stand-in embedder, used to run the
    model on concrete inputs. *)
Module Sample.

Definition embed (t : str) : vec := (Z.of_nat (length t) # 1) :: repeat 0%Q 383.

(** An embedder of the same width that places texts close together:
    the first coordinate is the length in units of [2^-30]. *)
Definition near (t : str) : vec :=
  (Z.of_nat (length t) # 2 ^ 30) :: repeat 0%Q 383.

Definition mkc (i : nat) (t name : string) : CardChunk.t :=
  CardChunk.mk i (lit t) (S (String.length t)) (lit name) (lit "card.pdf").

Definition visa : Card.t :=
  Card.mk (lit "Visa Platinum") (lit "card.pdf") 40 2
    [mkc 0 "Fee 0." "Visa Platinum"; mkc 1 "Cash back 2%." "Visa Platinum"].

Definition amex : Card.t :=
  Card.mk (lit "Amex Gold") (lit "card.pdf") 40 1
    [mkc 0 "Dining 4x points." "Amex Gold"].

Definition empty_card : Card.t :=
  Card.mk (lit "Blank") (lit "card.pdf") 0 0 [].

Definition no_disk : Disk :=
  {| faiss_index_bin := None; chunks_metadata_pkl := None |}.

Definition fresh : world := {| self := init; disk := no_disk |}.

(** The world after [create_embeddings cards] on a fresh system. *)
Definition built (cards : list Card.t) : world :=
  snd (create_embeddings 384 embed cards fresh).

End Sample.

(** * Properties of the chunker *)

Section StringFacts.

Lemma lstrip_app_nonspace (a : str) (c : ascii) (b : str) :
  is_space c = false -> lstrip (a ++ c :: b) = lstrip a ++ c :: b.
Proof.
  intros Hc. induction a as [|x a IH]; simpl.
  - now rewrite Hc.
  - destruct (is_space x); [exact IH | reflexivity].
Qed.

Lemma lstrip_spaces_app (l m : str) :
  forallb is_space l = true -> lstrip (l ++ m) = lstrip m.
Proof.
  induction l as [|x l IH]; simpl; [reflexivity|].
  intros H. apply andb_true_iff in H as [Hx Hl]. rewrite Hx. auto.
Qed.

Lemma lstrip_split (s : str) :
  exists l, s = l ++ lstrip s /\ forallb is_space l = true.
Proof.
  induction s as [|x s [l [E F]]]; simpl.
  - now exists [].
  - destruct (is_space x) eqn:Hx.
    + exists (x :: l). simpl. rewrite Hx, F. split; [now f_equal | reflexivity].
    + now exists [].
Qed.

Lemma lstrip_head (s : str) (c : ascii) (r : str) :
  lstrip s = c :: r -> is_space c = false.
Proof.
  induction s as [|x s IH]; simpl; [discriminate|].
  destruct (is_space x) eqn:Hx; [exact IH|].
  intros E. injection E as -> _. exact Hx.
Qed.

Lemma lstrip_length (s : str) : length (lstrip s) <= length s.
Proof.
  induction s as [|x s IH]; simpl; [lia|].
  destruct (is_space x); simpl; lia.
Qed.

Lemma rstrip_length (s : str) : length (rstrip s) <= length s.
Proof.
  unfold rstrip. rewrite length_rev, <- (length_rev s). apply lstrip_length.
Qed.

Lemma strip_length (s : str) : length (strip s) <= length s.
Proof.
  unfold strip. etransitivity; [apply rstrip_length | apply lstrip_length].
Qed.

(** Trimming on the right only removes a suffix. *)
Lemma rstrip_prefix (s : str) : exists r, s = rstrip s ++ r.
Proof.
  unfold rstrip. destruct (lstrip_split (rev s)) as [l [E _]].
  exists (rev l). rewrite <- rev_app_distr, <- E. symmetry. apply rev_involutive.
Qed.

Lemma rstrip_dot_space (y : str) : rstrip (y ++ lit ". ") = y ++ lit ".".
Proof.
  unfold rstrip. rewrite rev_app_distr. simpl.
  now rewrite rev_involutive.
Qed.

Lemma strip_head (s : str) (c : ascii) (r : str) :
  strip s = c :: r -> is_space c = false.
Proof.
  unfold strip. intros E. destruct (rstrip_prefix (lstrip s)) as [t Et].
  rewrite E in Et. simpl in Et. exact (lstrip_head _ _ _ Et).
Qed.

(** A sentence as the loop rebuilds it never starts with whitespace. *)
Lemma sentence_head (s : str) :
  exists c r, strip s ++ lit ". " = c :: r /\ is_space c = false.
Proof.
  destruct (strip s) as [|c r] eqn:E.
  - exists "."%char, [" "%char]. split; reflexivity.
  - exists c, (r ++ lit ". "). split; [reflexivity | exact (strip_head _ _ _ E)].
Qed.

Lemma lstrip_app_sentence (a s : str) :
  lstrip (a ++ (strip s ++ lit ". ")) = lstrip a ++ (strip s ++ lit ". ").
Proof.
  destruct (sentence_head s) as [c [r [E Hc]]]. rewrite E.
  now apply lstrip_app_nonspace.
Qed.

End StringFacts.

Module ChunkerFacts.
Import PDFProcessor.

(** What a chunk inherits from its predecessor's text [t]: the last
    [overlap] characters of [t] followed by the space that trimming
    removed, without leading whitespace. *)
Definition overlap_seed (overlap : Z) (t : str) : str :=
  lstrip (last_chars (Z.to_nat overlap) (t ++ lit " ")).

Definition link (overlap : Z) (a b : Chunk.t) : Prop :=
  exists rest, Chunk.text b = overlap_seed overlap (Chunk.text a) ++ rest.

Fixpoint chained (overlap : Z) (l : list Chunk.t) : Prop :=
  match l with
  | a :: ((b :: _) as t) => link overlap a b /\ chained overlap t
  | _ => True
  end.

Definition ends_dot_space (s : str) : Prop := exists x, s = x ++ lit ". ".

Lemma chained_snoc overlap l e :
  chained overlap l ->
  (forall l' a, l = l' ++ [a] -> link overlap a e) ->
  chained overlap (l ++ [e]).
Proof.
  induction l as [|x l IH]; simpl; [auto|].
  intros Hc Hl. destruct l as [|y l].
  - simpl. split; [apply (Hl [] x eq_refl) | exact I].
  - destruct Hc as [Hxy Hc]. split; [exact Hxy|].
    apply IH; [exact Hc|]. intros l' a E. apply (Hl (x :: l') a).
    simpl. now rewrite E.
Qed.

Lemma chained_nth overlap l i a b :
  chained overlap l ->
  nth_error l i = Some a -> nth_error l (S i) = Some b -> link overlap a b.
Proof.
  revert i. induction l as [|x l IH]; intros i Hc Ha Hb.
  - destruct i; discriminate.
  - destruct l as [|y l]; [destruct i; discriminate|].
    destruct Hc as [Hxy Hc]. destruct i as [|i].
    + simpl in Ha, Hb. now injection Ha as <-; injection Hb as <-.
    + exact (IH i Hc Ha Hb).
Qed.

(** A non-empty buffer ending in ". " is its trimmed text, one space
    after it and only whitespace before it. *)
Lemma buffer_shape (cur : str) :
  ends_dot_space cur ->
  exists l, cur = l ++ (strip cur ++ lit " ")
            /\ forallb is_space l = true
            /\ lstrip cur = strip cur ++ lit " ".
Proof.
  intros [x ->]. destruct (lstrip_split (x ++ lit ". ")) as [l [E F]].
  assert (L : lstrip (x ++ lit ". ") = lstrip x ++ lit ". ")
    by (now apply lstrip_app_nonspace).
  assert (T : strip (x ++ lit ". ") = lstrip x ++ lit ".")
    by (unfold strip; rewrite L; apply rstrip_dot_space).
  assert (LT : lstrip (x ++ lit ". ") = strip (x ++ lit ". ") ++ lit " ")
    by (rewrite T, L, <- app_assoc; reflexivity).
  exists l. rewrite <- LT. auto.
Qed.

Lemma forallb_skipn {A} (f : A -> bool) n l :
  forallb f l = true -> forallb f (skipn n l) = true.
Proof.
  revert n. induction l as [|x l IH]; intros [|n]; simpl; auto.
  intros H. apply andb_true_iff in H as [_ H]. auto.
Qed.

Lemma slice_last_chars (overlap : Z) (s : str) :
  (1 <= overlap)%Z -> slice_from (- overlap) s = last_chars (Z.to_nat overlap) s.
Proof.
  intros H. unfold slice_from, last_chars.
  destruct (Z.ltb_spec (- overlap) 0); [|lia]. f_equal. lia.
Qed.

Lemma last_chars_spaces_app n (l m : str) :
  forallb is_space l = true ->
  lstrip (last_chars n (l ++ m)) = lstrip (last_chars n m).
Proof.
  intros F. unfold last_chars. rewrite length_app, skipn_app.
  destruct (Nat.le_gt_cases n (length m)) as [Hn|Hn].
  - rewrite skipn_all2 by lia. simpl. f_equal. f_equal. lia.
  - replace (length l + length m - n - length l) with 0 by lia.
    replace (length m - n) with 0 by lia. simpl.
    apply lstrip_spaces_app. now apply forallb_skipn.
Qed.

(** The seed of the next buffer, as sliced from the raw buffer, starts
    with the seed computed from the trimmed text. *)
Lemma seed_of_buffer overlap (cur : str) :
  (0 <= overlap)%Z -> ends_dot_space cur ->
  exists pre, lstrip (slice_from (- overlap) cur)
              = overlap_seed overlap (strip cur) ++ pre.
Proof.
  intros Ho Hc. destruct (buffer_shape cur Hc) as [l [E [F _]]].
  unfold overlap_seed. destruct (Z.eq_dec overlap 0) as [->|Hz].
  - unfold last_chars. simpl Z.to_nat. rewrite Nat.sub_0_r, skipn_all. simpl.
    eauto.
  - exists []. rewrite app_nil_r, slice_last_chars by lia.
    rewrite E at 1. now apply last_chars_spaces_app.
Qed.

Record Inv (overlap : Z) (st : loop_state) : Prop := {
  inv_cur : current_chunk st = [] \/ ends_dot_space (current_chunk st);
  inv_chain : chained overlap (chunks st);
  inv_seed : forall l a, chunks st = l ++ [a] ->
             exists rest, lstrip (current_chunk st)
                          = overlap_seed overlap (Chunk.text a) ++ rest
                          /\ ends_dot_space rest;
  inv_len : Forall (fun c => length (Chunk.text c) + 1 <= Chunk.length c)
              (chunks st)
}.

Lemma Inv_init overlap : Inv overlap init_state.
Proof.
  split; simpl; auto. intros [|? ?] ? ?; discriminate.
Qed.

Lemma nonempty_true (s : str) : nonempty s = true -> s <> [].
Proof. now destruct s. Qed.

(** Emitting the current buffer keeps the chain and the length bound. *)
Lemma Inv_emit overlap st :
  Inv overlap st -> nonempty (current_chunk st) = true ->
  chained overlap (chunks st ++ [emit st])
  /\ Forall (fun c => length (Chunk.text c) + 1 <= Chunk.length c)
       (chunks st ++ [emit st]).
Proof.
  intros [Hc Hch Hs Hl] Hn. apply nonempty_true in Hn.
  destruct Hc as [|Hc]; [contradiction|]. split.
  - apply chained_snoc; [exact Hch|]. intros l a E.
    destruct (Hs l a E) as [rest [E1 [x ->]]].
    exists (x ++ lit "."). simpl. unfold strip. rewrite E1, !app_assoc.
    now rewrite rstrip_dot_space.
  - apply Forall_app. split; [exact Hl|]. constructor; [|constructor].
    simpl. destruct (buffer_shape _ Hc) as [l [E _]].
    rewrite E at 2. rewrite !length_app. simpl. lia.
Qed.

Lemma Inv_step chunk_size overlap st s :
  (0 <= overlap)%Z -> Inv overlap st -> Inv overlap (step chunk_size overlap st s).
Proof.
  intros Ho HI. unfold step.
  destruct (_ && nonempty (current_chunk st)) eqn:C.
  - apply andb_true_iff in C as [_ Hn].
    destruct (Inv_emit overlap st HI Hn) as [Hch Hl].
    destruct HI as [Hc _ _ _].
    destruct Hc as [Hc|Hc]; [now rewrite Hc in Hn|].
    split; simpl.
    + right. exists (slice_from (- overlap) (current_chunk st) ++ strip s).
      now rewrite <- app_assoc.
    + exact Hch.
    + intros l a E. apply app_inj_tail in E as [_ <-]. simpl.
      rewrite lstrip_app_sentence.
      destruct (seed_of_buffer overlap _ Ho Hc) as [pre ->].
      exists (pre ++ strip s ++ lit ". "). rewrite <- app_assoc. split; [reflexivity|].
      exists (pre ++ strip s). now rewrite <- app_assoc.
    + exact Hl.
  - destruct HI as [Hc Hch Hs Hl]. split; simpl.
    + right. exists (current_chunk st ++ strip s). now rewrite <- app_assoc.
    + exact Hch.
    + intros l a E. destruct (Hs l a E) as [rest [E1 [x ->]]].
      rewrite lstrip_app_sentence, E1.
      exists ((x ++ lit ". ") ++ strip s ++ lit ". "). rewrite <- !app_assoc.
      split; [reflexivity|].
      exists (x ++ lit ". " ++ strip s). now rewrite <- !app_assoc.
    + exact Hl.
Qed.

Lemma Inv_fold chunk_size overlap ss st :
  (0 <= overlap)%Z -> Inv overlap st ->
  Inv overlap (fold_left (step chunk_size overlap) ss st).
Proof.
  intros Ho. revert st. induction ss as [|s ss IH]; simpl; intros st HI.
  - exact HI.
  - apply IH. now apply Inv_step.
Qed.

Lemma Inv_finish overlap st :
  Inv overlap st ->
  chained overlap (finish st)
  /\ Forall (fun c => length (Chunk.text c) + 1 <= Chunk.length c) (finish st).
Proof.
  intros HI. unfold finish. destruct (nonempty (current_chunk st)) eqn:Hn.
  - now apply Inv_emit.
  - destruct HI. auto.
Qed.

(** The part of the invariant that holds for every [overlap]. *)
Record Shape (st : loop_state) : Prop := {
  shape_cur : current_chunk st = [] \/ ends_dot_space (current_chunk st);
  shape_len : Forall (fun c => length (Chunk.text c) + 1 <= Chunk.length c)
                (chunks st)
}.

Lemma Shape_emit st :
  Shape st -> nonempty (current_chunk st) = true ->
  Forall (fun c => length (Chunk.text c) + 1 <= Chunk.length c)
    (chunks st ++ [emit st]).
Proof.
  intros [Hc Hl] Hn. apply nonempty_true in Hn.
  destruct Hc as [|Hc]; [contradiction|].
  apply Forall_app. split; [exact Hl|]. constructor; [|constructor].
  simpl. destruct (buffer_shape _ Hc) as [l [E _]].
  rewrite E at 2. rewrite !length_app. simpl. lia.
Qed.

Lemma Shape_fold chunk_size overlap ss st :
  Shape st -> Shape (fold_left (step chunk_size overlap) ss st).
Proof.
  revert st. induction ss as [|s ss IH]; simpl; intros st HS; [exact HS|].
  apply IH. unfold step.
  destruct (_ && nonempty (current_chunk st)) eqn:C; split; simpl.
  - right. exists (slice_from (- overlap) (current_chunk st) ++ strip s).
    now rewrite <- app_assoc.
  - apply andb_true_iff in C as [_ Hn]. now apply Shape_emit.
  - right. exists (current_chunk st ++ strip s). now rewrite <- app_assoc.
  - now destruct HS.
Qed.

(** Chunks emitted so far, counting the pending buffer as one. *)
Definition weight (st : loop_state) : nat :=
  length (chunks st) + (if nonempty (current_chunk st) then 1 else 0).

Lemma app_sentence_nonempty (a s : str) :
  nonempty (a ++ strip s ++ lit ". ") = true.
Proof.
  destruct a; [|reflexivity]. simpl. now destruct (strip s).
Qed.

Lemma weight_step chunk_size overlap st s :
  weight (step chunk_size overlap st s) <= weight st + 1
  /\ nonempty (current_chunk (step chunk_size overlap st s)) = true.
Proof.
  unfold step, weight.
  destruct (_ && nonempty (current_chunk st)) eqn:C; simpl;
    rewrite app_sentence_nonempty; (split; [|reflexivity]).
  - apply andb_true_iff in C as [_ ->]. rewrite length_app. simpl. lia.
  - destruct (nonempty (current_chunk st)); lia.
Qed.

Lemma weight_fold chunk_size overlap ss st :
  weight (fold_left (step chunk_size overlap) ss st) <= weight st + length ss
  /\ (nonempty (current_chunk st) = true \/ ss <> [] ->
      nonempty (current_chunk (fold_left (step chunk_size overlap) ss st)) = true).
Proof.
  revert st. induction ss as [|s ss IH]; simpl; intros st.
  - split; [lia|]. now intros [H|H].
  - destruct (weight_step chunk_size overlap st s) as [W N].
    destruct (IH (step chunk_size overlap st s)) as [W' N'].
    split; [lia | auto].
Qed.

Lemma finish_length st : length (finish st) = weight st.
Proof.
  unfold finish, weight. destruct (nonempty (current_chunk st)).
  - rewrite length_app. simpl. lia.
  - lia.
Qed.

(** *** Splitting and rebuilding *)

Lemma split_cons2 c d s :
  split_dot_space (c :: d :: s)
  = if Ascii.eqb c "."%char && Ascii.eqb d " "%char
    then [] :: split_dot_space s
    else cons_head c (split_dot_space (d :: s)).
Proof. reflexivity. Qed.

Fixpoint total (ps : list str) : nat :=
  match ps with
  | [] => 0
  | p :: ps' => length p + 2 + total ps'
  end.

Lemma split_total_bounded n : forall s, length s <= n ->
  split_dot_space s <> [] /\ total (split_dot_space s) = length s + 2.
Proof.
  induction n as [|n IH]; intros s H.
  - destruct s; [|simpl in H; lia]. simpl. split; [discriminate | reflexivity].
  - destruct s as [|c [|d s]].
    + simpl. split; [discriminate | reflexivity].
    + simpl. split; [discriminate | reflexivity].
    + rewrite split_cons2. simpl in H.
      destruct (Ascii.eqb c "."%char && Ascii.eqb d " "%char).
      * destruct (IH s ltac:(lia)) as [_ T]. split; [discriminate|].
        simpl. rewrite T. lia.
      * destruct (IH (d :: s) ltac:(simpl; lia)) as [N T].
        destruct (split_dot_space (d :: s)) as [|p ps]; [contradiction|].
        split; [discriminate|]. simpl in *. lia.
Qed.

Lemma split_total s :
  split_dot_space s <> [] /\ total (split_dot_space s) = length s + 2.
Proof. apply (split_total_bounded (length s)). lia. Qed.

(** The buffer when nothing is emitted on the way. *)
Definition rebuilt (ss : list str) : str :=
  concat (map (fun s => strip s ++ lit ". ") ss).

Lemma rebuilt_length ss : length (rebuilt ss) <= total ss.
Proof.
  induction ss as [|s ss IH]; [simpl; lia|].
  change (rebuilt (s :: ss)) with ((strip s ++ lit ". ") ++ rebuilt ss).
  rewrite !length_app. pose proof (strip_length s).
  change (length (lit ". ")) with 2. change (total (s :: ss)) with (length s + 2 + total ss). lia.
Qed.

Lemma rebuilt_ends ss : ss <> [] -> ends_dot_space (rebuilt ss).
Proof.
  induction ss as [|s ss IH]; [contradiction|]. intros _.
  change (rebuilt (s :: ss)) with ((strip s ++ lit ". ") ++ rebuilt ss).
  destruct ss as [|s' ss].
  - exists (strip s). unfold rebuilt. simpl. now rewrite app_nil_r.
  - destruct (IH ltac:(discriminate)) as [x E]. rewrite E.
    exists ((strip s ++ lit ". ") ++ x). now rewrite <- !app_assoc.
Qed.

Lemma rebuilt_lstrip ss : lstrip (rebuilt ss) = rebuilt ss.
Proof.
  destruct ss as [|s ss]; [reflexivity|].
  change (rebuilt (s :: ss)) with ((strip s ++ lit ". ") ++ rebuilt ss).
  destruct (sentence_head s) as [c [r [E Hc]]]. rewrite E. simpl.
  now rewrite Hc.
Qed.

Lemma fold_no_emit chunk_size overlap ss : forall st,
  (Z.of_nat (length (current_chunk st) + length (rebuilt ss)) <= chunk_size)%Z ->
  fold_left (step chunk_size overlap) ss st
  = {| chunks := chunks st;
       current_chunk := current_chunk st ++ rebuilt ss;
       chunk_id := chunk_id st |}.
Proof.
  induction ss as [|s ss IH]; intros st H.
  - simpl. rewrite app_nil_r. now destruct st.
  - change (rebuilt (s :: ss)) with ((strip s ++ lit ". ") ++ rebuilt ss) in *.
    rewrite length_app in H. simpl fold_left.
    assert (S1 : step chunk_size overlap st s
                 = {| chunks := chunks st;
                      current_chunk := current_chunk st ++ strip s ++ lit ". ";
                      chunk_id := chunk_id st |}).
    { unfold step. replace (_ >? chunk_size)%Z with false; [reflexivity|].
      symmetry. rewrite Z.gtb_ltb. apply Z.ltb_ge. lia. }
    rewrite S1, IH; simpl.
    + now rewrite <- app_assoc.
    + rewrite !length_app in *. simpl in *. lia.
Qed.

End ChunkerFacts.

Import PDFProcessor ChunkerFacts.

(** *** Overlap between consecutive chunks *)

(** C4, as stated, fails: the overlap is sliced from the raw buffer,
    whose last character is the space that [strip] removes from the
    stored text.  With [chunk_size = 10] and [overlap = 3] the first
    chunk's text is "aaaa." and the second is "a. bbbb.", which does
    not begin with "aa.". *)
Lemma chunk_overlap_not_text_suffix :
  ~ (forall (text : str) (chunk_size overlap : Z) (i : nat) (a b : Chunk.t),
        (0 <= overlap < chunk_size)%Z ->
        nth_error (chunk_text text chunk_size overlap) i = Some a ->
        nth_error (chunk_text text chunk_size overlap) (S i) = Some b ->
        starts_with (last_chars (Z.to_nat overlap) (Chunk.text a)) (Chunk.text b)
        = true).
Proof.
  intros H.
  specialize (H (lit "aaaa. bbbb. cccc") 10%Z 3%Z 0
                (Chunk.mk 0 (lit "aaaa.") 6) (Chunk.mk 1 (lit "a. bbbb.") 9)
                ltac:(lia) eq_refl eq_refl).
  discriminate H.
Qed.

(** C4 (amended): for every text and every configuration with
    [0 <= overlap], every chunk after the first begins with the last
    [overlap] characters of (its predecessor's text followed by one
    space, the space that trimming removed), that slice taken without
    its leading whitespace. *)
Theorem chunk_overlap_seed (text : str) (chunk_size overlap : Z)
    (i : nat) (a b : Chunk.t) :
  (0 <= overlap)%Z ->
  nth_error (chunk_text text chunk_size overlap) i = Some a ->
  nth_error (chunk_text text chunk_size overlap) (S i) = Some b ->
  exists rest,
    Chunk.text b
    = lstrip (last_chars (Z.to_nat overlap) (Chunk.text a ++ lit " ")) ++ rest.
Proof.
  intros Ho Ha Hb. unfold chunk_text in Ha, Hb.
  pose proof (Inv_fold chunk_size overlap (sentences_of text) init_state Ho
                (Inv_init overlap)) as HI.
  apply Inv_finish in HI as [Hc _].
  exact (chained_nth overlap _ i a b Hc Ha Hb).
Qed.

Lemma chunk_overlap_seed_witness :
  exists rest,
    lit "a. bbbb." = lstrip (last_chars 3 (lit "aaaa." ++ lit " ")) ++ rest.
Proof.
  apply (chunk_overlap_seed (lit "aaaa. bbbb. cccc") 10 3 0
           (Chunk.mk 0 (lit "aaaa.") 6) (Chunk.mk 1 (lit "a. bbbb.") 9));
    [lia | reflexivity | reflexivity].
Defined.

(** *** No validation of the configuration *)

(** C5, as stated, fails: with [overlap = 10 >= chunk_size = 5] the call
    returns three chunks. *)
Lemma chunk_text_accepts_large_overlap :
  ~ (forall (text : str) (chunk_size overlap : Z),
        (overlap >= chunk_size)%Z ->
        exists e, chunk_text_call text chunk_size overlap = Raised e).
Proof.
  intros H. destruct (H (lit "aaaa. bbbb. cccc") 5%Z 10%Z ltac:(lia)) as [e E].
  discriminate E.
Qed.

(** C5 (amended): [chunk_text] does not compare [overlap] with
    [chunk_size]; a call with [overlap >= chunk_size] returns normally,
    with at least one chunk and at most one chunk per sentence unit. *)
Theorem chunk_text_returns_for_large_overlap (text : str) (chunk_size overlap : Z) :
  (overlap >= chunk_size)%Z ->
  exists l, chunk_text_call text chunk_size overlap = Returned l
            /\ l <> []
            /\ length l <= length (sentences_of text).
Proof.
  intros _. exists (chunk_text text chunk_size overlap).
  split; [reflexivity|]. unfold chunk_text.
  destruct (weight_fold chunk_size overlap (sentences_of text) init_state)
    as [W N].
  assert (Hne : sentences_of text <> []) by apply split_total.
  specialize (N (or_intror Hne)). split.
  - unfold finish. rewrite N. now destruct (chunks _).
  - rewrite finish_length. exact W.
Qed.

Lemma chunk_text_returns_for_large_overlap_witness :
  exists l, chunk_text_call (lit "aaaa. bbbb. cccc") 5 10 = Returned l
            /\ l <> []
            /\ length l <= length (sentences_of (lit "aaaa. bbbb. cccc")).
Proof.
  apply (chunk_text_returns_for_large_overlap (lit "aaaa. bbbb. cccc") 5 10).
  lia.
Defined.

(** *** Short texts *)

(** C6, as stated, fails: every sentence unit, the last one included, is
    re-terminated with ". ", so "Hello" comes back as "Hello.". *)
Lemma short_text_is_reterminated :
  ~ (forall (text : str) (chunk_size overlap : Z),
        (Z.of_nat (length text) < chunk_size)%Z ->
        exists c, chunk_text text chunk_size overlap = [c]
                  /\ Chunk.text c = strip (replace_newline text)).
Proof.
  intros H. destruct (H (lit "Hello") 500%Z 100%Z ltac:(simpl; lia)) as [c [E T]].
  injection E as <-. discriminate T.
Qed.

(** The bound on the input length in C6 is also too weak by the two
    characters of the added terminator: a 6-character text with
    [chunk_size = 7] gives two chunks. *)
Example short_text_two_chunks :
  chunk_text (lit "ab. cd") 7 2
  = [Chunk.mk 0 (lit "ab.") 4; Chunk.mk 1 (lit ". cd.") 6].
Proof. reflexivity. Qed.

(** C6 (amended): for every text with [len(text) + 2 <= chunk_size],
    [chunk_text] returns exactly one chunk, with id 0, whose text is the
    sentence units of the input (newlines turned into spaces, split on
    ". "), each trimmed and each followed by ". ", without the final
    space. *)
Theorem short_text_single_chunk (text : str) (chunk_size overlap : Z) :
  (Z.of_nat (length text) + 2 <= chunk_size)%Z ->
  exists c, chunk_text text chunk_size overlap = [c]
            /\ Chunk.chunk_id c = 0
            /\ Chunk.text c ++ lit " "
               = concat (map (fun s => strip s ++ lit ". ")
                           (split_dot_space (replace_newline text))).
Proof.
  intros H. unfold chunk_text, sentences_of.
  set (ss := split_dot_space (replace_newline text)).
  destruct (split_total (replace_newline text)) as [Hne Ht]. fold ss in Hne, Ht.
  assert (Hlen : length (replace_newline text) = length text)
    by apply length_map.
  pose proof (rebuilt_length ss) as Hr.
  rewrite fold_no_emit by (simpl; lia). simpl.
  pose proof (rebuilt_ends ss Hne) as He.
  unfold finish. simpl.
  assert (Hn : nonempty (rebuilt ss) = true).
  { destruct He as [x ->]. now destruct x. }
  rewrite Hn. eexists. split; [reflexivity|]. split; [reflexivity|]. simpl.
  destruct (buffer_shape _ He) as [_ [_ [_ L]]].
  change (strip (rebuilt ss) ++ lit " " = rebuilt ss).
  rewrite <- L. apply rebuilt_lstrip.
Qed.

Lemma short_text_single_chunk_witness :
  exists c, chunk_text (lit "Hello") 500 100 = [c]
            /\ Chunk.chunk_id c = 0
            /\ Chunk.text c ++ lit " "
               = concat (map (fun s => strip s ++ lit ". ")
                           (split_dot_space (replace_newline (lit "Hello")))).
Proof.
  apply (short_text_single_chunk (lit "Hello") 500 100). simpl. lia.
Defined.

(** *** The recorded length *)

(** Every chunk records the length of the untrimmed buffer, which is
    longer than its text by at least the trailing space. *)
Lemma chunk_length_exceeds_text (text : str) (chunk_size overlap : Z) (c : Chunk.t) :
  In c (chunk_text text chunk_size overlap) ->
  length (Chunk.text c) + 1 <= Chunk.length c.
Proof.
  intros Hin. unfold chunk_text in Hin.
  assert (HS : Shape (fold_left (step chunk_size overlap) (sentences_of text)
                        init_state)).
  { apply Shape_fold. split; simpl; auto. }
  unfold finish in Hin.
  destruct (nonempty _) eqn:Hn.
  - pose proof (Shape_emit _ HS Hn) as F.
    rewrite Forall_forall in F. now apply F.
  - destruct HS as [_ F]. rewrite Forall_forall in F. now apply F.
Qed.

(** C9 at the input "Hello" (default sizes): the single chunk has text
    "Hello.", of 6 characters, and records length 7. *)
Theorem chunk_length_of_hello :
  chunk_text (lit "Hello") 500 100 = [Chunk.mk 0 (lit "Hello.") 7]
  /\ length (lit "Hello.") = 6.
Proof. split; reflexivity. Qed.

(** * Properties of the RAG system *)

Module RagFacts.
Import RAGSystem.

Local Open Scope rag_scope.

Lemma collect_chunk_fold cs : forall acc,
  fold_left collect_chunk cs acc
  = (fst acc ++ cs, snd acc ++ map CardChunk.text cs).
Proof.
  induction cs as [|c cs IH]; intros [a t]; simpl.
  - now rewrite !app_nil_r.
  - rewrite IH. simpl. now rewrite <- !app_assoc.
Qed.

Lemma collect_card_fold cards : forall acc,
  fold_left collect_card cards acc
  = (fst acc ++ flat_map Card.chunks cards,
     snd acc ++ map CardChunk.text (flat_map Card.chunks cards)).
Proof.
  induction cards as [|c cards IH]; intros [a t]; simpl.
  - now rewrite !app_nil_r.
  - rewrite IH. unfold collect_card. rewrite collect_chunk_fold. simpl.
    now rewrite map_app, <- !app_assoc.
Qed.

Lemma combine_fst_snd {A B} (l : list (A * B)) :
  combine (map fst l) (map snd l) = l.
Proof.
  induction l as [|[a b] l IH]; simpl; [reflexivity | now rewrite IH].
Qed.

Section Model.

Variable model_dim : nat.
Variable embed : str -> vec.

Local Abbreviation create_embeddings :=
  (RAGSystem.create_embeddings model_dim embed).
Local Abbreviation search := (RAGSystem.search model_dim embed).

(** The batch as [create_embeddings] flattens it. *)
Definition batch (cards : list Card.t) : list CardChunk.t :=
  flat_map Card.chunks cards.

(** What [create_embeddings] does, case by case. *)
Lemma create_embeddings_run cards w :
  create_embeddings cards w
  = match batch cards with
    | [] =>
        (Raised ValueError,
         {| self := {| index := Some (Faiss.new (dimension (self w)));
                       chunks := []; dimension := dimension (self w) |};
            disk := disk w |})
    | _ :: _ =>
        if model_dim =? dimension (self w) then
          let i := {| Faiss.d := dimension (self w);
                      Faiss.xb := map embed (map CardChunk.text (batch cards)) |} in
          (Returned tt,
           {| self := {| index := Some i; chunks := batch cards;
                         dimension := dimension (self w) |};
              disk := {| faiss_index_bin := Some (Valid (Some i));
                         chunks_metadata_pkl := Some (Valid (batch cards)) |} |})
        else
          (Raised AssertionError,
           {| self := {| index := Some (Faiss.new (dimension (self w)));
                         chunks := batch cards;
                         dimension := dimension (self w) |};
              disk := disk w |})
    end.
Proof.
  unfold RAGSystem.create_embeddings, bind, set_chunks, set_index, get_self, lift.
  simpl. rewrite collect_card_fold. simpl. fold (batch cards).
  destruct (batch cards) as [|c cs] eqn:E; simpl; [reflexivity|].
  destruct (model_dim =? dimension (self w)); reflexivity.
Qed.

(** What [search] does, case by case. *)
Lemma search_run query k card_filter w :
  search query k card_filter w
  = match index (self w) with
    | None => (Returned [], w)
    | Some i =>
        let limit := (if negb (truthy card_filter) then k else k * 3)%Z in
        if negb (model_dim =? Faiss.d i) then (Raised AssertionError, w)
        else if (limit <=? 0)%Z then (Raised AssertionError, w)
        else (collect_results (chunks (self w)) k card_filter
                (Faiss.knn i (Z.to_nat limit) (embed query)) [], w)
    end.
Proof.
  unfold RAGSystem.search, bind, get_self, lift, ret. simpl.
  destruct (index (self w)) as [i|]; [|reflexivity].
  unfold Faiss.search, encode.
  destruct (negb (model_dim =? Faiss.d i)); [reflexivity|].
  destruct (_ <=? 0)%Z; [reflexivity|]. simpl.
  now rewrite combine_fst_snd.
Qed.

(** Every result comes from a candidate whose chunk passed the filter. *)
Lemma collect_results_inv (P : SearchResult.t -> Prop) cs k card_filter cands :
  (forall idx dist c,
      In (idx, dist) cands -> getitem cs idx = Returned c ->
      passes card_filter c = true ->
      P (SearchResult.mk c dist (relevance_of dist))) ->
  forall results rs,
    Forall P results ->
    collect_results cs k card_filter cands results = Returned rs ->
    Forall P rs.
Proof.
  induction cands as [|[idx dist] cands IH]; intros HP results rs HF E.
  - simpl in E. now injection E as <-.
  - simpl in E. destruct (idx <? Z.of_nat (length cs))%Z.
    + destruct (getitem cs idx) as [c|e] eqn:G; [|discriminate].
      assert (HF' : Forall P (if passes card_filter c
                              then results ++ [SearchResult.mk c dist (relevance_of dist)]
                              else results)).
      { destruct (passes card_filter c) eqn:Pc; [|exact HF].
        apply Forall_app. split; [exact HF|]. constructor; [|constructor].
        apply (HP idx dist c); auto. now left. }
      destruct (_ >=? k)%Z.
      * now injection E as <-.
      * apply (IH (fun i d0 c0 Hin => HP i d0 c0 (or_intror Hin)) _ _ HF' E).
    + apply (IH (fun i d0 c0 Hin => HP i d0 c0 (or_intror Hin)) _ _ HF E).
Qed.

End Model.

(** *** The index search *)

Lemma In_insert x y l : In x (Faiss.insert y l) -> x = y \/ In x l.
Proof.
  induction l as [|z l IH]; simpl.
  - intros [<-|[]]. now left.
  - destruct (Qle_bool (snd y) (snd z)); simpl.
    + intros [<-|H]; auto.
    + intros [<-|H]; auto. destruct (IH H); auto.
Qed.

Lemma In_sort x l : In x (Faiss.sort l) -> In x l.
Proof.
  induction l as [|y l IH]; simpl; [auto|].
  intros H. destruct (In_insert _ _ _ H) as [->|H']; auto.
Qed.

Lemma In_positions {B} (g : vec -> B) (l : list vec) : forall s a b,
  In (a, b) (combine (map Z.of_nat (seq s (length l))) (map g l)) ->
  exists j v, a = Z.of_nat (s + j) /\ nth_error l j = Some v /\ b = g v.
Proof.
  induction l as [|v l IH]; intros s a b H; simpl in H; [contradiction|].
  destruct H as [E|H].
  - injection E as <- <-. exists 0, v. rewrite Nat.add_0_r. auto.
  - destruct (IH _ _ _ H) as [j [v' [Ea [En Eb]]]].
    exists (S j), v'. rewrite Nat.add_succ_r. auto.
Qed.

(** A candidate is either padding or a stored position with its own
    distance to the query. *)
Lemma In_knn idx k q a b :
  In (a, b) (Faiss.knn idx k q) ->
  (a = (-1)%Z /\ b = Faiss.FLT_MAX)
  \/ exists j v, a = Z.of_nat j /\ nth_error (Faiss.xb idx) j = Some v
                 /\ b = Faiss.sqdist q v.
Proof.
  unfold Faiss.knn. intros H. apply in_app_or in H as [H|H].
  - right.
    assert (H' : In (a, b) (Faiss.sort (Faiss.scored idx q))).
    { rewrite <- (firstn_skipn k). apply in_or_app. now left. }
    apply In_sort in H'. rename H' into H0. clear H. rename H0 into H. unfold Faiss.scored, Faiss.ntotal in H.
    exact (In_positions (Faiss.sqdist q) (Faiss.xb idx) 0 a b H).
  - left. apply repeat_spec in H. now injection H.
Qed.

(** The index search does not cap [k] to what is stored. *)
Lemma knn_length idx k q : length (Faiss.knn idx k q) = k.
Proof.
  unfold Faiss.knn. rewrite length_app, repeat_length.
  pose proof (firstn_le_length k (Faiss.sort (Faiss.scored idx q))). lia.
Qed.

Lemma sqdist_nonneg a : forall b, (0 <= Faiss.sqdist a b)%Q.
Proof.
  induction a as [|x a IH]; intros [|y b]; simpl; try apply Qle_refl.
  rewrite <- (Qplus_0_r 0). apply Qplus_le_compat; [|apply IH].
  destruct (Qlt_le_dec (x - y) 0) as [H|H].
  - setoid_replace ((x - y) * (x - y))%Q with ((- (x - y)) * (- (x - y)))%Q by ring.
    apply Qmult_le_0_compat; apply (Qopp_le_compat (x - y) 0); now apply Qlt_le_weak.
  - now apply Qmult_le_0_compat.
Qed.

Lemma knn_nonneg idx k q a b : In (a, b) (Faiss.knn idx k q) -> (0 <= b)%Q.
Proof.
  intros H. destruct (In_knn _ _ _ _ _ H) as [[_ ->]|[j [v [_ [_ ->]]]]].
  - discriminate.
  - apply sqdist_nonneg.
Qed.

End RagFacts.

(** *** Rounding to float32 *)

Module Float32Facts.
Import Float32.

Local Open Scope Q_scope.

Lemma rne_floor (x : Q) : (Qfloor x <= rne x <= Qfloor x + 1)%Z.
Proof.
  unfold rne. destruct (x - inject_Z (Qfloor x) ?= 1 # 2); [destruct (Z.even _)| |]; lia.
Qed.

Lemma rne_mono (x y : Q) : x <= y -> (rne x <= rne y)%Z.
Proof.
  intros Hxy.
  pose proof (Qfloor_resp_le _ _ Hxy) as Hf.
  pose proof (rne_floor x) as Hx. pose proof (rne_floor y) as Hy.
  destruct (Z.eq_dec (Qfloor x) (Qfloor y)) as [E|NE]; [|lia].
  clear Hx Hy Hf. unfold rne. rewrite <- E.
  destruct (x - inject_Z (Qfloor x) ?= 1 # 2) eqn:Cx;
    destruct (y - inject_Z (Qfloor x) ?= 1 # 2) eqn:Cy;
    try destruct (Z.even (Qfloor x)); try lia; exfalso.
  all: first [apply Qeq_alt in Cx | apply Qlt_alt in Cx | apply Qgt_alt in Cx].
  all: first [apply Qeq_alt in Cy | apply Qlt_alt in Cy | apply Qgt_alt in Cy].
  all: lra.
Qed.

Lemma rne_inject (n : Z) : rne (inject_Z n) = n.
Proof.
  unfold rne. rewrite Qfloor_Z.
  destruct (inject_Z n - inject_Z n ?= 1 # 2) eqn:C; [exfalso|reflexivity|exfalso];
    first [apply Qeq_alt in C | apply Qgt_alt in C]; lra.
Qed.

Lemma quantum_pos (t : Q) : (0 < quantum t)%Z.
Proof. unfold quantum, exponent. apply Z.pow_pos_nonneg; lia. Qed.

Lemma exponent_mono (t t' : Q) : t <= t' -> (exponent t <= exponent t')%Z.
Proof.
  intros H. unfold exponent.
  pose proof (Z.log2_le_mono _ _ (Qfloor_resp_le _ _ H)). lia.
Qed.

Lemma inject_Z_pos (n : Z) : (0 < n)%Z -> 0 < inject_Z n.
Proof. intros H. change 0 with (inject_Z 0). now rewrite <- Zlt_Qlt. Qed.

Lemma round_units_upper (t : Q) :
  (round_units t <= 2 ^ (exponent t + 24))%Z.
Proof.
  pose proof (quantum_pos t) as Hq.
  assert (He : (0 <= exponent t)%Z) by (unfold exponent; lia).
  assert (Hf : (Qfloor t + 1 <= 2 ^ (exponent t + 24))%Z).
  { destruct (Z_lt_le_dec 0 (Qfloor t)) as [P|N].
    - pose proof (Z.log2_spec _ P) as [_ Hs].
      assert ((2 ^ Z.succ (Z.log2 (Qfloor t)) <= 2 ^ (exponent t + 24))%Z).
      { apply Z.pow_le_mono_r; [lia|]. unfold exponent. lia. }
      lia.
    - assert ((2 ^ 0 <= 2 ^ (exponent t + 24))%Z)
        by (apply Z.pow_le_mono_r; lia).
      change (2 ^ 0)%Z with 1%Z in *. lia. }
  assert (Ht : t <= inject_Z (2 ^ (exponent t + 24))).
  { apply Qle_trans with (inject_Z (Qfloor t + 1)).
    - apply Qlt_le_weak, Qlt_floor.
    - rewrite <- Zle_Qle. exact Hf. }
  assert (Hr : (rne (t / inject_Z (quantum t)) <= 2 ^ 24)%Z).
  { rewrite <- (rne_inject (2 ^ 24)). apply rne_mono.
    apply Qle_shift_div_r; [now apply inject_Z_pos|].
    rewrite <- inject_Z_mult. unfold quantum.
    rewrite <- Z.pow_add_r by lia. now rewrite (Z.add_comm 24). }
  unfold round_units.
  rewrite (Z.add_comm (exponent t)), Z.pow_add_r by lia.
  apply Z.mul_le_mono_nonneg_r; [|exact Hr]. fold (quantum t). lia.
Qed.

Lemma round_units_lower (t : Q) :
  (1 <= exponent t)%Z -> (2 ^ (exponent t + 23) <= round_units t)%Z.
Proof.
  intros He.
  pose proof (quantum_pos t) as Hq.
  assert (El : exponent t = (Z.log2 (Qfloor t) - 23)%Z)
    by (unfold exponent in *; lia).
  assert (P : (0 < Qfloor t)%Z).
  { destruct (Z_lt_le_dec 0 (Qfloor t)) as [P|N]; [exact P|].
    rewrite (Z.log2_nonpos _ N) in El. lia. }
  pose proof (Z.log2_spec _ P) as [Hs _].
  assert (Ht : inject_Z (2 ^ (exponent t + 23)) <= t).
  { apply Qle_trans with (inject_Z (Qfloor t)); [|apply Qfloor_le].
    rewrite <- Zle_Qle. rewrite El.
    now replace (Z.log2 (Qfloor t) - 23 + 23)%Z with (Z.log2 (Qfloor t)) by lia. }
  assert (Hr : (2 ^ 23 <= rne (t / inject_Z (quantum t)))%Z).
  { rewrite <- (rne_inject (2 ^ 23)) at 1. apply rne_mono.
    apply Qle_shift_div_l; [now apply inject_Z_pos|].
    rewrite <- inject_Z_mult. unfold quantum.
    rewrite <- Z.pow_add_r by lia. now rewrite (Z.add_comm 23). }
  unfold round_units.
  rewrite (Z.add_comm (exponent t)), Z.pow_add_r by lia.
  apply Z.mul_le_mono_nonneg_r; [|exact Hr]. fold (quantum t). lia.
Qed.

Lemma round_units_mono (t t' : Q) :
  t <= t' -> (round_units t <= round_units t')%Z.
Proof.
  intros H. pose proof (exponent_mono _ _ H) as He.
  destruct (Z.eq_dec (exponent t) (exponent t')) as [E|NE].
  - unfold round_units, quantum. rewrite <- E. fold (quantum t).
    pose proof (quantum_pos t) as Hq.
    apply Z.mul_le_mono_nonneg_r; [lia|].
    apply rne_mono. apply Qmult_le_compat_r; [exact H|].
    apply Qlt_le_weak, Qinv_lt_0_compat. now apply inject_Z_pos.
  - assert (H0 : (0 <= exponent t)%Z) by (unfold exponent; lia).
    pose proof (round_units_upper t) as U.
    pose proof (round_units_lower t' ltac:(lia)) as L.
    assert ((2 ^ (exponent t + 24) <= 2 ^ (exponent t' + 23))%Z)
      by (apply Z.pow_le_mono_r; lia).
    lia.
Qed.

Lemma scale_pos : 0 < scale.
Proof. reflexivity. Qed.

Lemma round_nonneg (x : Q) :
  0 <= x -> round x = inject_Z (round_units (x * scale)) / scale.
Proof.
  intros H. unfold round.
  destruct (Qle_bool 0 x) eqn:E; [reflexivity|].
  apply Qle_bool_iff in H. congruence.
Qed.

(** Rounding is monotone (on the non-negative values, the only ones the
    relevance computation meets). *)
Lemma round_mono (x y : Q) : 0 <= x -> x <= y -> round x <= round y.
Proof.
  intros Hx Hxy.
  rewrite (round_nonneg x Hx), (round_nonneg y (Qle_trans _ _ _ Hx Hxy)).
  apply Qmult_le_compat_r.
  - rewrite <- Zle_Qle. apply round_units_mono.
    apply Qmult_le_compat_r; [exact Hxy|]. apply Qlt_le_weak, scale_pos.
  - apply Qlt_le_weak, Qinv_lt_0_compat, scale_pos.
Qed.

Lemma round_one : round 1 == 1.
Proof. vm_compute. reflexivity. Qed.

Lemma round_overflow : round overflow == inject_Z (2 ^ 128).
Proof. vm_compute. reflexivity. Qed.

Lemma round_tiny : round (1 / inject_Z (2 ^ 128)) == 1 / inject_Z (2 ^ 128).
Proof. vm_compute. reflexivity. Qed.

Lemma Qfloor_between (y : Q) (n : Z) :
  inject_Z n <= y -> y < inject_Z (n + 1) -> Qfloor y = n.
Proof.
  intros L U.
  pose proof (Qfloor_resp_le _ _ L) as H1. rewrite Qfloor_Z in H1.
  assert (H2 : (Qfloor y < n + 1)%Z).
  { rewrite Zlt_Qlt. eapply Qle_lt_trans; [apply Qfloor_le | exact U]. }
  lia.
Qed.

Lemma rne_above_half (y : Q) (n : Z) :
  inject_Z n + (1 # 2) < y -> (n + 1 <= rne y)%Z.
Proof.
  intros H.
  assert (L : inject_Z n <= y) by lra.
  pose proof (Qfloor_resp_le _ _ L) as H1. rewrite Qfloor_Z in H1.
  pose proof (rne_floor y) as Hr.
  destruct (Z.eq_dec (Qfloor y) n) as [E|NE]; [|lia].
  unfold rne. rewrite E.
  destruct (y - inject_Z n ?= 1 # 2) eqn:C; [exfalso|exfalso|lia];
    first [apply Qeq_alt in C | apply Qlt_alt in C]; lra.
Qed.

(** Just above [1], the float32 values are [2^-23] apart: a sum beyond
    the midpoint [1 + 2^-24] rounds to [1 + 2^-23] or more. *)
Lemma round_above_one (x : Q) :
  1 + (1 # 2 ^ 24) < x -> x < 2 -> 1 + (1 # 2 ^ 23) <= round x.
Proof.
  intros L U.
  assert (X1 : 1 < x) by (eapply Qlt_trans; [|exact L]; reflexivity).
  rewrite round_nonneg by lra.
  assert (Ef : exponent (x * scale) = 126%Z).
  { unfold exponent.
    assert (Hlo : inject_Z (2 ^ 149) <= x * scale).
    { change (inject_Z (2 ^ 149)) with scale.
      setoid_replace scale with (1 * scale) at 1 by ring.
      apply Qmult_le_compat_r; [lra | apply Qlt_le_weak, scale_pos]. }
    assert (Hhi : x * scale < inject_Z (2 ^ 150)).
    { setoid_replace (inject_Z (2 ^ 150)) with (2 * scale) by reflexivity.
      apply Qmult_lt_compat_r; [apply scale_pos | exact U]. }
    pose proof (Qfloor_resp_le _ _ Hlo) as H1. rewrite Qfloor_Z in H1.
    assert (H2 : (Qfloor (x * scale) < 2 ^ 150)%Z).
    { rewrite Zlt_Qlt. eapply Qle_lt_trans; [apply Qfloor_le | exact Hhi]. }
    rewrite (Z.log2_unique (Qfloor (x * scale)) 149); [reflexivity | lia |].
    change (2 ^ (149 + 1))%Z with (2 ^ 150)%Z. lia. }
  unfold round_units, quantum. rewrite Ef.
  assert (Hr : (2 ^ 23 + 1 <= rne (x * scale / inject_Z (2 ^ 126)))%Z).
  { apply rne_above_half.
    apply Qlt_shift_div_l; [reflexivity|].
    eapply Qle_lt_trans;
      [|apply Qmult_lt_compat_r; [apply scale_pos | exact L]].
    apply Qle_bool_iff. vm_compute. reflexivity. }
  apply Qle_trans with (inject_Z ((2 ^ 23 + 1) * 2 ^ 126) / scale).
  - apply Qle_bool_iff. vm_compute. reflexivity.
  - apply Qmult_le_compat_r.
    + rewrite <- Zle_Qle. apply Z.mul_le_mono_nonneg_r; [lia | exact Hr].
    + apply Qlt_le_weak, Qinv_lt_0_compat, scale_pos.
Qed.

End Float32Facts.

(** *** Distance to relevance *)

Module RelevanceFacts.
Import Float32 Float32Facts.

Local Open Scope Q_scope.

Lemma no_overflow (d : Q) :
  1 + d < overflow -> relevance_of d = round (1 / round (1 + d)).
Proof.
  intros H. unfold relevance_of.
  destruct (Qle_bool overflow (1 + d)) eqn:E; [|reflexivity].
  apply Qle_bool_iff in E. lra.
Qed.

Lemma round_sum_bounds (d : Q) :
  0 <= d -> 1 + d < overflow ->
  1 <= round (1 + d) /\ round (1 + d) <= inject_Z (2 ^ 128).
Proof.
  intros H0 H. split.
  - apply Qle_trans with (round 1); [now rewrite round_one|].
    apply round_mono; lra.
  - apply Qle_trans with (round overflow); [|now rewrite round_overflow].
    apply round_mono; lra.
Qed.

Lemma Qinv_le_antitone (a b : Q) : 0 < a -> a <= b -> 1 / b <= 1 / a.
Proof.
  intros Ha Hab.
  apply Qle_shift_div_l; [exact Ha|].
  setoid_replace (1 / b * a) with (a / b) by (field; lra).
  apply Qle_shift_div_r; lra.
Qed.

Lemma relevance_range (d : Q) :
  0 <= d ->
  0 <= relevance_of d /\ relevance_of d <= 1 /\
  (1 + d < overflow -> 0 < relevance_of d).
Proof.
  intros H0.
  destruct (Qlt_le_dec (1 + d) overflow) as [F|O].
  - rewrite (no_overflow d F).
    destruct (round_sum_bounds d H0 F) as [L U].
    assert (P : 1 / inject_Z (2 ^ 128) <= round (1 / round (1 + d))).
    { apply Qle_trans with (round (1 / inject_Z (2 ^ 128)));
        [now rewrite round_tiny|].
      apply round_mono; [discriminate|].
      apply Qinv_le_antitone; lra. }
    assert (T : 0 < 1 / inject_Z (2 ^ 128)) by reflexivity.
    split; [lra|]. split; [|intros _; lra].
    apply Qle_trans with (round 1); [|now rewrite round_one].
    apply round_mono.
    + apply Qle_shift_div_l; lra.
    + apply Qle_shift_div_r; lra.
  - unfold relevance_of. apply Qle_bool_iff in O. rewrite O.
    split; [discriminate|]. split; [discriminate|].
    apply Qle_bool_iff in O. intros F. lra.
Qed.

(** Relevance never increases with the distance. *)
Lemma relevance_monotone (d1 d2 : Q) :
  0 <= d1 -> d1 <= d2 -> relevance_of d2 <= relevance_of d1.
Proof.
  intros H0 H.
  destruct (Qlt_le_dec (1 + d2) overflow) as [F|O].
  - assert (F1 : 1 + d1 < overflow) by lra.
    rewrite (no_overflow d2 F), (no_overflow d1 F1).
    destruct (round_sum_bounds d1 H0 F1) as [L1 _].
    destruct (round_sum_bounds d2 ltac:(lra) F) as [L2 _].
    apply round_mono.
    + apply Qle_shift_div_l; lra.
    + apply Qinv_le_antitone; [lra|]. apply round_mono; lra.
  - unfold relevance_of at 1. apply Qle_bool_iff in O. rewrite O.
    apply (relevance_range d1 H0).
Qed.

Lemma relevance_at_zero : relevance_of 0 == 1.
Proof. vm_compute. reflexivity. Qed.

Lemma relevance_at_half_ulp : relevance_of (1 # 2 ^ 24) == 1.
Proof. vm_compute. reflexivity. Qed.

Lemma relevance_at_ulp : relevance_of (1 # 2 ^ 23) < 1.
Proof. vm_compute. reflexivity. Qed.

(** The relevance is [1] exactly up to half a unit in the last place of
    [1.0]. *)
Lemma relevance_one (d : Q) :
  0 <= d -> (relevance_of d == 1 <-> d <= 1 # 2 ^ 24).
Proof.
  intros H0. split.
  - intros E. destruct (Qlt_le_dec (1 # 2 ^ 24) d) as [G|L]; [exfalso|exact L].
    assert (B : relevance_of d < 1); [|rewrite E in B; discriminate].
    destruct (Qlt_le_dec d (1 # 2 ^ 23)) as [S|S].
    + assert (D1 : d < 1) by (eapply Qlt_trans; [exact S | reflexivity]).
      assert (F : 1 + d < overflow).
      { apply Qlt_trans with 2; [lra | reflexivity]. }
      rewrite (no_overflow d F).
      assert (R : 1 + (1 # 2 ^ 23) <= round (1 + d)).
      { apply round_above_one; [|lra].
        rewrite (Qplus_comm 1 d), (Qplus_comm 1). now apply Qplus_lt_l. }
      assert (R1 : 0 < round (1 + d)).
      { eapply Qlt_le_trans; [|exact R]. reflexivity. }
      apply Qle_lt_trans with (round (1 / (1 + (1 # 2 ^ 23)))).
      * apply round_mono.
        -- apply Qle_shift_div_l; lra.
        -- apply Qinv_le_antitone; [reflexivity | exact R].
      * vm_compute. reflexivity.
    + apply Qle_lt_trans with (relevance_of (1 # 2 ^ 23)).
      * apply relevance_monotone; [discriminate | exact S].
      * apply relevance_at_ulp.
  - intros L. apply Qle_antisym.
    + apply (relevance_range d H0).
    + apply Qle_trans with (relevance_of (1 # 2 ^ 24));
        [now rewrite relevance_at_half_ulp|].
      apply relevance_monotone; assumption.
Qed.

End RelevanceFacts.

Import RAGSystem RagFacts RelevanceFacts.


(** *** Position alignment *)



(** *** Rejection of an empty batch *)

(** C7: on a batch with no chunks [create_embeddings] raises, at the
    [index.add] call, before anything is written to the embeddings
    directory. *)
Theorem create_embeddings_rejects_empty (model_dim : nat) (embed : str -> vec)
    (cards : list Card.t) (w : world) :
  flat_map Card.chunks cards = [] ->
  exists w',
    create_embeddings model_dim embed cards w = (Raised ValueError, w')
    /\ disk w' = disk w.
Proof.
  intros E. rewrite create_embeddings_run. unfold batch. rewrite E.
  eexists. split; reflexivity.
Qed.

Lemma create_embeddings_rejects_empty_witness :
  exists w',
    create_embeddings 384 Sample.embed [Sample.empty_card] Sample.fresh
    = (Raised ValueError, w')
    /\ disk w' = disk Sample.fresh.
Proof.
  apply (create_embeddings_rejects_empty 384 Sample.embed [Sample.empty_card]
           Sample.fresh).
  reflexivity.
Defined.

(** *** Relevance *)

(** C2 as stated fails.  With one chunk stored at squared distance
    [9 * 2^-60] from the query, [search] returns it with relevance
    exactly [1]: [1.0 + 9 * 2^-60] rounds to [1.0].  So a relevance of 1 does not
    mean a distance of 0, and the relevance is not [1 / (1 + d)] as a
    number. *)
Lemma search_relevance_one_at_positive_distance :
  ~ (forall (model_dim : nat) (embed : str -> vec) (query : str) (k : Z)
            (card_filter : option str) (w w' : world)
            (rs : list SearchResult.t),
        search model_dim embed query k card_filter w = (Returned rs, w') ->
        forall r, In r rs ->
          (SearchResult.relevance r == 1 / (1 + SearchResult.score r))%Q
          /\ (SearchResult.relevance r == 1 <-> SearchResult.score r == 0)%Q).
Proof.
  intros H.
  pose (w := snd (create_embeddings 384 Sample.near [Sample.amex] Sample.fresh)).
  assert (E : exists r,
             search 384 Sample.near (lit "dining points?") 1 None w
             = (Returned [r], w)
             /\ (SearchResult.relevance r == 1)%Q
             /\ ~ (SearchResult.score r == 0)%Q).
  { eexists. split; [vm_compute; reflexivity|].
    split; [vm_compute; reflexivity | vm_compute; discriminate]. }
  destruct E as [r [E [R1 S0]]].
  destruct (H _ _ _ _ _ _ _ _ E r (or_introl eq_refl)) as [_ [H1 _]].
  exact (S0 (H1 R1)).
Qed.

(** C2, amended: every result of [search] carries the relevance
    [relevance_of d] for its distance [d], which is [1.0 / (1.0 + d)]
    evaluated in float32 (the sum rounded, then the quotient).  The
    distance is non-negative and the relevance lies in [0, 1]; for a
    distance up to the largest float32 it is positive.  It equals 1
    exactly when [d <= 2^-24], so at [d = 0] and on the small positive
    distances as well.  As a function of the distance it never
    increases, without being strictly decreasing. *)
Theorem search_relevance (model_dim : nat) (embed : str -> vec)
    (query : str) (k : Z) (card_filter : option str)
    (w w' : world) (rs : list SearchResult.t) :
  search model_dim embed query k card_filter w = (Returned rs, w') ->
  (forall r, In r rs ->
     SearchResult.relevance r = relevance_of (SearchResult.score r)
     /\ (0 <= SearchResult.score r)%Q
     /\ (0 <= SearchResult.relevance r)%Q
     /\ (SearchResult.relevance r <= 1)%Q
     /\ ((SearchResult.score r <= Faiss.FLT_MAX)%Q ->
         SearchResult.relevance r
         = Float32.round (1 / Float32.round (1 + SearchResult.score r))
         /\ (0 < SearchResult.relevance r)%Q)
     /\ ((SearchResult.relevance r == 1)%Q
         <-> (SearchResult.score r <= 1 # 2 ^ 24)%Q))
  /\ (forall d1 d2, (0 <= d1)%Q -> (d1 <= d2)%Q ->
        (relevance_of d2 <= relevance_of d1)%Q)
  /\ (relevance_of 0 == 1)%Q
  /\ (relevance_of (1 # 2 ^ 24) == relevance_of 0)%Q.
Proof.
  intros E. split; [|split; [exact relevance_monotone|split; reflexivity]].
  apply Forall_forall. rewrite search_run in E.
  destruct (index (self w)) as [i|].
  - cbv zeta in E. destruct (negb _); [discriminate|].
    destruct (_ <=? 0)%Z; [discriminate|].
    injection E as E _. revert E. apply collect_results_inv; [|constructor].
    intros idx dist c Hin _ _. cbn [SearchResult.relevance SearchResult.score].
    pose proof (knn_nonneg _ _ _ _ _ Hin) as Hd.
    destruct (relevance_range dist Hd) as [H0 [H1 H2]].
    split; [reflexivity|]. split; [exact Hd|]. split; [exact H0|].
    split; [exact H1|]. split; [|now apply relevance_one].
    intros F.
    assert (F' : (1 + dist < Float32.overflow)%Q).
    { apply Qle_lt_trans with (1 + Faiss.FLT_MAX)%Q; [|reflexivity].
      apply Qplus_le_r. exact F. }
    split; [now apply no_overflow | now apply H2].
  - injection E as <- _. constructor.
Qed.

Lemma search_relevance_witness :
  (forall r,
      In r [SearchResult.mk (Sample.mkc 0 "Fee 0." "Visa Platinum") 4
              (relevance_of 4)] ->
      SearchResult.relevance r = relevance_of (SearchResult.score r)
      /\ (0 <= SearchResult.score r)%Q
      /\ (0 <= SearchResult.relevance r)%Q
      /\ (SearchResult.relevance r <= 1)%Q
      /\ ((SearchResult.score r <= Faiss.FLT_MAX)%Q ->
          SearchResult.relevance r
          = Float32.round (1 / Float32.round (1 + SearchResult.score r))
          /\ (0 < SearchResult.relevance r)%Q)
      /\ ((SearchResult.relevance r == 1)%Q
          <-> (SearchResult.score r <= 1 # 2 ^ 24)%Q))
  /\ (forall d1 d2, (0 <= d1)%Q -> (d1 <= d2)%Q ->
        (relevance_of d2 <= relevance_of d1)%Q)
  /\ (relevance_of 0 == 1)%Q
  /\ (relevance_of (1 # 2 ^ 24) == relevance_of 0)%Q.
Proof.
  apply (search_relevance 384 Sample.embed (lit "fee?") 1 None
           (Sample.built [Sample.visa; Sample.amex])
           (Sample.built [Sample.visa; Sample.amex])).
  vm_compute. reflexivity.
Defined.

(** *** Source filter *)

(** C3: with a filter given, every result's card name contains the
    filter as a substring once both are lower-cased. *)
Theorem search_respects_filter (model_dim : nat) (embed : str -> vec)
    (query : str) (k : Z) (f : str)
    (w w' : world) (rs : list SearchResult.t) (r : SearchResult.t) :
  search model_dim embed query k (Some f) w = (Returned rs, w') ->
  In r rs ->
  contains (lower f) (lower (CardChunk.card_name (SearchResult.chunk r))) = true.
Proof.
  intros E. revert r. apply Forall_forall. rewrite search_run in E.
  destruct (index (self w)) as [i|].
  - cbv zeta in E. destruct (negb _); [discriminate|].
    destruct (_ <=? 0)%Z; [discriminate|].
    injection E as E _. revert E. apply collect_results_inv; [|constructor].
    intros idx dist c _ _ Hp. exact Hp.
  - injection E as <- _. constructor.
Qed.

Lemma search_respects_filter_witness :
  contains (lower (lit "VISA")) (lower (lit "Visa Platinum")) = true.
Proof.
  apply (search_respects_filter 384 Sample.embed (lit "fee?") 1 (lit "VISA")
           (Sample.built [Sample.amex; Sample.visa])
           (Sample.built [Sample.amex; Sample.visa])
           [SearchResult.mk (Sample.mkc 0 "Fee 0." "Visa Platinum") 4
              (relevance_of 4)]
           (SearchResult.mk (Sample.mkc 0 "Fee 0." "Visa Platinum") 4
              (relevance_of 4))).
  - vm_compute. reflexivity.
  - simpl. left. reflexivity.
Defined.

(** *** Asking for more than is stored *)

(** C8 at a two-vector index with [k = 3] and no filter: the third
    candidate is the padding label [-1], which passes
    [idx < len(self.chunks)] and indexes the chunk list from the end, so
    the last chunk is returned a second time, with the padding distance. *)
Theorem search_repeats_last_chunk :
  Faiss.ntotal {| Faiss.d := 384;
                  Faiss.xb := map Sample.embed [lit "Fee 0."; lit "Cash back 2%."] |}
  = 2
  /\ index (self (Sample.built [Sample.visa]))
     = Some {| Faiss.d := 384;
               Faiss.xb := map Sample.embed [lit "Fee 0."; lit "Cash back 2%."] |}
  /\ exists r1 r2 r3,
       fst (search 384 Sample.embed (lit "fee?") 3 None (Sample.built [Sample.visa]))
       = Returned [r1; r2; r3]
       /\ SearchResult.chunk r2 = Sample.mkc 1 "Cash back 2%." "Visa Platinum"
       /\ SearchResult.chunk r3 = Sample.mkc 1 "Cash back 2%." "Visa Platinum"
       /\ SearchResult.score r3 = Faiss.FLT_MAX.
Proof.
  split; [reflexivity|]. split; [vm_compute; reflexivity|].
  do 3 eexists. split; [vm_compute; reflexivity|].
  repeat split; reflexivity.
Qed.

(** The same with a filter: the corpus holds two chunks of the filtered
    card and [k = 3] results come back. *)
Example search_filter_repeats_last_chunk :
  match fst (search 384 Sample.embed (lit "fee?") 3 (Some (lit "visa"))
               (Sample.built [Sample.amex; Sample.visa])) with
  | Returned rs =>
      map (fun r => CardChunk.chunk_id (SearchResult.chunk r)) rs = [0; 1; 1]
  | Raised _ => False
  end.
Proof. vm_compute. reflexivity. Qed.

(** *** Loading without the files *)

(** C10: when either file is missing, [load_index] returns [False] and
    the world (index, chunks and files) is as before the call. *)
Theorem load_index_missing_file (w : world) :
  faiss_index_bin (disk w) = None \/ chunks_metadata_pkl (disk w) = None ->
  load_index w = (Returned false, w).
Proof.
  unfold load_index, bind, get_disk, ret. simpl.
  intros [E|E]; rewrite E; [reflexivity|].
  now destruct (faiss_index_bin (disk w)).
Qed.

Lemma load_index_missing_file_witness :
  load_index Sample.fresh = (Returned false, Sample.fresh).
Proof.
  apply (load_index_missing_file Sample.fresh). left. reflexivity.
Defined.

(** * Further properties of the chunker *)

Module ChunkerMore.
Import PDFProcessor ChunkerFacts.

Lemma rstrip_app_nonspace (a : str) (c : ascii) (b : str) :
  is_space c = false -> rstrip (a ++ c :: b) = a ++ c :: rstrip b.
Proof.
  intros Hc. unfold rstrip. rewrite rev_app_distr. simpl.
  rewrite <- app_assoc. simpl. rewrite lstrip_app_nonspace by exact Hc.
  rewrite rev_app_distr. simpl. rewrite rev_involutive, <- app_assoc.
  reflexivity.
Qed.

(** [p] occurs in [s]. *)
Definition infix (p s : str) : Prop := exists a b, s = a ++ p ++ b.

(** Trimming cannot cut into an occurrence that starts and ends with a
    non-whitespace character. *)
Lemma infix_strip (p s : str) (c e : ascii) (r r' : str) :
  p = c :: r -> p = r' ++ [e] -> is_space c = false -> is_space e = false ->
  infix p s -> infix p (strip s).
Proof.
  intros Ec Ee Hc He [a [b ->]]. unfold strip.
  assert (L : lstrip (a ++ p ++ b) = lstrip a ++ p ++ b).
  { rewrite Ec. simpl. now apply lstrip_app_nonspace. }
  rewrite L.
  assert (R : rstrip (lstrip a ++ p ++ b) = lstrip a ++ p ++ rstrip b).
  { replace (lstrip a ++ p ++ b) with ((lstrip a ++ r') ++ e :: b)
      by (rewrite Ee, <- !app_assoc; reflexivity).
    rewrite rstrip_app_nonspace by exact He.
    rewrite Ee, <- !app_assoc. reflexivity. }
  rewrite R. now exists (lstrip a), (rstrip b).
Qed.

(** One step of the loop on a buffer, by cases. *)
Lemma step_cases chunk_size overlap st s :
  (current_chunk st = []
   /\ step chunk_size overlap st s
      = {| chunks := chunks st; current_chunk := strip s ++ lit ". ";
           chunk_id := chunk_id st |})
  \/ (current_chunk st <> []
      /\ (Z.of_nat (length (current_chunk st))
          + Z.of_nat (length (strip s ++ lit ". ")) <= chunk_size)%Z
      /\ step chunk_size overlap st s
         = {| chunks := chunks st;
              current_chunk := current_chunk st ++ strip s ++ lit ". ";
              chunk_id := chunk_id st |})
  \/ (current_chunk st <> []
      /\ (chunk_size < Z.of_nat (length (current_chunk st))
                       + Z.of_nat (length (strip s ++ lit ". ")))%Z
      /\ step chunk_size overlap st s
         = {| chunks := chunks st ++ [emit st];
              current_chunk :=
                slice_from (- overlap) (current_chunk st) ++ strip s ++ lit ". ";
              chunk_id := chunk_id st + 1 |}).
Proof.
  unfold step. destruct (current_chunk st) as [|x cur] eqn:E.
  - left. split; [reflexivity|]. rewrite andb_false_r. reflexivity.
  - right. rewrite andb_true_r.
    destruct (Z.gtb_spec (Z.of_nat (length (x :: cur))
                          + Z.of_nat (length (strip s ++ lit ". "))) chunk_size).
    + right. repeat split; [discriminate | lia].
    + left. repeat split; [discriminate | lia].
Qed.

Section Buffers.

Variables (chunk_size overlap : Z) (ss : list str).

(** A property of raw buffers that every way of building a buffer keeps. *)
Variable P : str -> Prop.

Hypothesis P_first : forall s, In s ss -> P (strip s ++ lit ". ").
Hypothesis P_append : forall cur s,
  In s ss -> P cur -> cur <> [] ->
  (Z.of_nat (length cur) + Z.of_nat (length (strip s ++ lit ". ")) <= chunk_size)%Z ->
  P (cur ++ strip s ++ lit ". ").
Hypothesis P_seed : forall cur s,
  In s ss -> P cur -> cur <> [] ->
  P (slice_from (- overlap) cur ++ strip s ++ lit ". ").

(** The chunk was emitted from a non-empty buffer satisfying [P]. *)
Definition from_buffer (n : nat) (c : Chunk.t) : Prop :=
  exists buf, P buf /\ buf <> []
              /\ c = Chunk.mk n (strip buf) (length buf).

(** Chunks so far are numbered from [0] and come from good buffers. *)
Fixpoint numbered (n : nat) (l : list Chunk.t) : Prop :=
  match l with
  | [] => True
  | c :: l' => from_buffer n c /\ numbered (S n) l'
  end.

Lemma numbered_snoc l : forall n c,
  numbered n l -> from_buffer (n + length l) c -> numbered n (l ++ [c]).
Proof.
  induction l as [|x l IH]; simpl; intros n c H Hc.
  - rewrite Nat.add_0_r in Hc. auto.
  - destruct H as [Hx Hl]. split; [exact Hx|]. apply IH; [exact Hl|].
    now rewrite Nat.add_succ_l, <- Nat.add_succ_r.
Qed.

Record Good (st : loop_state) : Prop := {
  good_cur : current_chunk st = [] \/ P (current_chunk st);
  good_id : chunk_id st = length (chunks st);
  good_chunks : numbered 0 (chunks st)
}.

Lemma Good_emit st :
  Good st -> current_chunk st <> [] -> numbered 0 (chunks st ++ [emit st]).
Proof.
  intros [Hc Hi Hn] Hne. apply numbered_snoc; [exact Hn|].
  destruct Hc as [Hc|Hc]; [contradiction|].
  exists (current_chunk st). repeat split; auto.
  unfold emit. now rewrite Hi.
Qed.

Lemma Good_fold : forall l st,
  incl l ss -> Good st -> Good (fold_left (step chunk_size overlap) l st).
Proof.
  induction l as [|s l IH]; intros st Hin HG; [exact HG|].
  simpl. apply IH; [intros x Hx; apply Hin; now right|].
  assert (Hs : In s ss) by (apply Hin; now left).
  destruct (step_cases chunk_size overlap st s)
    as [[E ->]|[[Hne [Hle ->]]|[Hne [Hgt ->]]]].
  - destruct HG as [Hc Hi Hn]. split; simpl; auto.
  - destruct HG as [Hc Hi Hn]. split; simpl; auto.
    destruct Hc as [Hc|Hc]; [contradiction|]. right. now apply P_append.
  - pose proof (Good_emit st HG Hne) as Hn'.
    destruct HG as [Hc Hi Hn]. split; simpl.
    + destruct Hc as [Hc|Hc]; [contradiction|]. right. now apply P_seed.
    + rewrite length_app. simpl. lia.
    + exact Hn'.
Qed.

Lemma Good_finish st : Good st -> numbered 0 (finish st).
Proof.
  intros HG. unfold finish. destruct (nonempty (current_chunk st)) eqn:Hn.
  - apply Good_emit; [exact HG | now apply nonempty_true].
  - now destruct HG.
Qed.

Lemma numbered_nth l : forall n i c,
  numbered n l -> nth_error l i = Some c -> from_buffer (n + i) c.
Proof.
  induction l as [|x l IH]; intros n [|i] c H E; try discriminate.
  - simpl in E. injection E as <-. rewrite Nat.add_0_r. apply H.
  - simpl in E. destruct H as [_ H]. rewrite <- Nat.add_succ_comm.
    exact (IH _ _ _ H E).
Qed.

End Buffers.

(** Every chunk of [chunk_text], at position [i], was emitted with id
    [i] from a non-empty raw buffer that satisfies any property kept by
    the three ways the loop builds a buffer. *)
Lemma chunk_text_from_buffer (P : str -> Prop) text chunk_size overlap :
  (forall s, In s (sentences_of text) -> P (strip s ++ lit ". ")) ->
  (forall cur s, In s (sentences_of text) -> P cur -> cur <> [] ->
     (Z.of_nat (length cur) + Z.of_nat (length (strip s ++ lit ". "))
      <= chunk_size)%Z ->
     P (cur ++ strip s ++ lit ". ")) ->
  (forall cur s, In s (sentences_of text) -> P cur -> cur <> [] ->
     P (slice_from (- overlap) cur ++ strip s ++ lit ". ")) ->
  forall i c, nth_error (chunk_text text chunk_size overlap) i = Some c ->
  from_buffer P i c.
Proof.
  intros H1 H2 H3 i c E. unfold chunk_text in E.
  refine (numbered_nth P _ 0 i c _ E).
  apply (Good_finish P).
  apply (Good_fold chunk_size overlap (sentences_of text) P H1 H2 H3);
    [apply incl_refl|].
  split; simpl; auto.
Qed.

End ChunkerMore.

Import PDFProcessor ChunkerFacts ChunkerMore.

(** *** Numbering *)

(** X1: the chunk at position [i] of the result has [chunk_id = i]. *)
Theorem chunk_ids_sequential (text : str) (chunk_size overlap : Z)
    (i : nat) (c : Chunk.t) :
  nth_error (chunk_text text chunk_size overlap) i = Some c ->
  Chunk.chunk_id c = i.
Proof.
  intros E.
  destruct (chunk_text_from_buffer (fun _ => True) text chunk_size overlap
              (fun _ _ => I) (fun _ _ _ _ _ _ => I) (fun _ _ _ _ _ => I) i c E)
    as [buf [_ [_ ->]]].
  reflexivity.
Qed.

Lemma chunk_ids_sequential_witness :
  Chunk.chunk_id (Chunk.mk 2 (lit "b. cccc.") 9) = 2.
Proof.
  apply (chunk_ids_sequential (lit "aaaa. bbbb. cccc") 10 3 2). reflexivity.
Defined.

(** *** How many chunks *)

(** X2: [chunk_text] never returns an empty list, the empty text
    included, and never more chunks than the text has sentence units. *)
Theorem chunk_text_count (text : str) (chunk_size overlap : Z) :
  chunk_text text chunk_size overlap <> []
  /\ length (chunk_text text chunk_size overlap) <= length (sentences_of text).
Proof.
  unfold chunk_text.
  destruct (weight_fold chunk_size overlap (sentences_of text) init_state)
    as [W N].
  assert (Hne : sentences_of text <> []) by apply split_total.
  specialize (N (or_intror Hne)). split.
  - unfold finish. rewrite N. now destruct (chunks _).
  - rewrite finish_length. exact W.
Qed.

Example chunk_text_of_empty_text :
  chunk_text [] 500 100 = [Chunk.mk 0 (lit ".") 2].
Proof. reflexivity. Qed.

(** *** Shape of a chunk's text *)

Lemma lstrip_fixed (s : str) (c : ascii) (r : str) :
  s = c :: r -> is_space c = false -> lstrip s = s.
Proof. intros -> H. simpl. now rewrite H. Qed.

(** X3: every chunk's text is already trimmed and ends with a full
    stop (so it is never empty). *)
Theorem chunk_text_trimmed (text : str) (chunk_size overlap : Z) (c : Chunk.t) :
  In c (chunk_text text chunk_size overlap) ->
  strip (Chunk.text c) = Chunk.text c
  /\ exists x, Chunk.text c = x ++ lit ".".
Proof.
  intros Hin. apply In_nth_error in Hin as [i E].
  destruct (chunk_text_from_buffer ends_dot_space text chunk_size overlap)
    with (i := i) (c := c) as [buf [[x ->] [_ ->]]]; try exact E.
  - intros s _. now exists (strip s).
  - intros cur s _ _ _ _. exists (cur ++ strip s). now rewrite <- app_assoc.
  - intros cur s _ _ _. exists (slice_from (- overlap) cur ++ strip s).
    now rewrite <- app_assoc.
  - cbn [Chunk.text].
    assert (L0 : lstrip (x ++ lit ". ") = lstrip x ++ lit ". ")
      by (now apply lstrip_app_nonspace).
    assert (T : strip (x ++ lit ". ") = lstrip x ++ lit ".")
      by (unfold strip; rewrite L0; apply rstrip_dot_space).
    rewrite T. split; [|now exists (lstrip x)].
    assert (L : lstrip (lstrip x ++ lit ".") = lstrip x ++ lit ".").
    { destruct (lstrip x) as [|h t] eqn:Ex; [reflexivity|].
      apply (lstrip_fixed _ h (t ++ lit ".")); [reflexivity|].
      exact (lstrip_head _ _ _ Ex). }
    unfold strip. rewrite L.
    change (lstrip x ++ lit ".") with (lstrip x ++ "."%char :: []).
    now rewrite rstrip_app_nonspace.
Qed.

Lemma chunk_text_trimmed_witness :
  strip (lit "a. bbbb.") = lit "a. bbbb."
  /\ exists x, lit "a. bbbb." = x ++ lit ".".
Proof.
  apply (chunk_text_trimmed (lit "aaaa. bbbb. cccc") 10 3
           (Chunk.mk 1 (lit "a. bbbb.") 9)).
  simpl. right. left. reflexivity.
Defined.

(** *** Recorded length, in general *)

Module LengthFacts.

(** How many characters [strip] removes at the front of [s]. *)
Definition lead_ws (s : str) : nat := length s - length (lstrip s).

(** The raw buffer a chunk was emitted from, rebuilt from its fields:
    the text, the one space trimmed after it, and before it as many
    whitespace characters as the recorded length leaves (which
    whitespace characters they were is not recorded). *)
Definition raw_of (c : Chunk.t) : str :=
  repeat " "%char (Chunk.length c - length (Chunk.text c) - 1)
  ++ Chunk.text c ++ lit " ".

(** The recorded length of [b], from its own text and its predecessor
    [a]: the whitespace at the front of the slice [current_chunk[-overlap:]]
    of [a]'s buffer was part of [b]'s buffer. *)
Definition length_link (overlap : Z) (a b : Chunk.t) : Prop :=
  Chunk.length b
  = lead_ws (slice_from (- overlap) (raw_of a)) + length (Chunk.text b) + 1.

Fixpoint consecutive (R : Chunk.t -> Chunk.t -> Prop) (l : list Chunk.t) : Prop :=
  match l with
  | a :: ((b :: _) as t) => R a b /\ consecutive R t
  | _ => True
  end.

Lemma consecutive_snoc R l e :
  consecutive R l ->
  (forall l' a, l = l' ++ [a] -> R a e) ->
  consecutive R (l ++ [e]).
Proof.
  induction l as [|x l IH]; simpl; [auto|].
  intros Hc Hl. destruct l as [|y l].
  - simpl. split; [apply (Hl [] x eq_refl) | exact I].
  - destruct Hc as [Hxy Hc]. split; [exact Hxy|].
    apply IH; [exact Hc|]. intros l' a E. apply (Hl (x :: l') a).
    simpl. now rewrite E.
Qed.

Lemma consecutive_nth R l i a b :
  consecutive R l ->
  nth_error l i = Some a -> nth_error l (S i) = Some b -> R a b.
Proof.
  revert i. induction l as [|x l IH]; intros i Hc Ha Hb.
  - destruct i; discriminate.
  - destruct l as [|y l]; [destruct i; discriminate|].
    destruct Hc as [Hxy Hc]. destruct i as [|i].
    + simpl in Ha, Hb. now injection Ha as <-; injection Hb as <-.
    + exact (IH i Hc Ha Hb).
Qed.

(** A sentence appended to a buffer leaves its leading whitespace as it
    is. *)
Lemma lead_ws_app_sentence (cur s : str) :
  lead_ws (cur ++ strip s ++ lit ". ") = lead_ws cur.
Proof.
  unfold lead_ws. rewrite lstrip_app_sentence, !length_app.
  pose proof (lstrip_length cur). lia.
Qed.

Lemma lead_ws_spaces_app (l m : str) :
  forallb is_space l = true -> lead_ws (l ++ m) = length l + lead_ws m.
Proof.
  intros F. unfold lead_ws. rewrite lstrip_spaces_app by exact F.
  rewrite length_app. pose proof (lstrip_length m). lia.
Qed.

Lemma lead_ws_skipn (j : nat) (l l' m : str) :
  forallb is_space l = true -> forallb is_space l' = true ->
  length l = length l' ->
  lead_ws (skipn j (l ++ m)) = lead_ws (skipn j (l' ++ m)).
Proof.
  intros F F' E. rewrite !skipn_app, <- E.
  rewrite !lead_ws_spaces_app by (now apply forallb_skipn).
  now rewrite !length_skipn, E.
Qed.

(** The slice of a buffer has the leading whitespace of the same slice
    of any buffer that differs from it in its leading whitespace
    characters only. *)
Lemma lead_ws_slice (start : Z) (l l' m : str) :
  forallb is_space l = true -> forallb is_space l' = true ->
  length l = length l' ->
  lead_ws (slice_from start (l ++ m)) = lead_ws (slice_from start (l' ++ m)).
Proof.
  intros F F' E. unfold slice_from. rewrite !length_app, E.
  destruct (start <? 0)%Z; now apply lead_ws_skipn.
Qed.

Lemma forallb_repeat_space (n : nat) :
  forallb is_space (repeat " "%char n) = true.
Proof. induction n as [|n IH]; simpl; auto. Qed.

(** What [emit] records, and the buffer rebuilt from it. *)
Lemma emit_length st :
  ends_dot_space (current_chunk st) ->
  Chunk.length (emit st)
  = lead_ws (current_chunk st) + length (Chunk.text (emit st)) + 1
  /\ forall start,
       lead_ws (slice_from start (raw_of (emit st)))
       = lead_ws (slice_from start (current_chunk st)).
Proof.
  intros Hc. destruct (buffer_shape _ Hc) as [l [E [F L]]].
  assert (Hl : lead_ws (current_chunk st) = length l).
  { unfold lead_ws. rewrite L. rewrite E at 1. rewrite !length_app. lia. }
  assert (Hn : length (current_chunk st)
               = length l + length (strip (current_chunk st)) + 1).
  { rewrite E at 1. rewrite !length_app. simpl. lia. }
  split.
  - cbn [emit Chunk.length Chunk.text]. lia.
  - intros start. unfold raw_of. cbn [emit Chunk.length Chunk.text].
    rewrite E at 4.
    apply lead_ws_slice;
      [apply forallb_repeat_space | exact F | rewrite repeat_length; lia].
Qed.

Record LInv (overlap : Z) (st : loop_state) : Prop := {
  l_cur : current_chunk st = [] \/ ends_dot_space (current_chunk st);
  l_chain : consecutive (length_link overlap) (chunks st);
  l_first : forall c t, chunks st = c :: t ->
            Chunk.length c = length (Chunk.text c) + 1;
  l_lead0 : chunks st = [] -> lead_ws (current_chunk st) = 0;
  l_lead : forall l a, chunks st = l ++ [a] ->
           lead_ws (current_chunk st)
           = lead_ws (slice_from (- overlap) (raw_of a))
}.

Lemma LInv_emit overlap st :
  LInv overlap st -> current_chunk st <> [] ->
  consecutive (length_link overlap) (chunks st ++ [emit st])
  /\ (forall c t, chunks st ++ [emit st] = c :: t ->
        Chunk.length c = length (Chunk.text c) + 1).
Proof.
  intros [Hc Hch Hf H0 Hl] Hne.
  destruct Hc as [Hc|Hc]; [contradiction|].
  destruct (emit_length st Hc) as [He _]. split.
  - apply consecutive_snoc; [exact Hch|]. intros l a E.
    unfold length_link. rewrite He, (Hl l a E). reflexivity.
  - intros c t E. destruct (chunks st) as [|x l] eqn:Ec.
    + simpl in E. injection E as <- _. rewrite He, (H0 eq_refl). reflexivity.
    + simpl in E. injection E as <- _. now apply (Hf x l).
Qed.

Lemma LInv_step chunk_size overlap st s :
  LInv overlap st -> LInv overlap (step chunk_size overlap st s).
Proof.
  intros HI.
  destruct (step_cases chunk_size overlap st s)
    as [[E ->]|[[Hne [Hle ->]]|[Hne [Hgt ->]]]].
  - destruct HI as [Hc Hch Hf H0 Hl]. rewrite E in H0, Hl.
    split; cbn [chunks current_chunk].
    + right. now exists (strip s).
    + exact Hch.
    + exact Hf.
    + intros Ec. rewrite <- (H0 Ec). apply (lead_ws_app_sentence []).
    + intros l a Ec. rewrite <- (Hl l a Ec). apply (lead_ws_app_sentence []).
  - destruct HI as [Hc Hch Hf H0 Hl]. split; cbn [chunks current_chunk].
    + right. destruct Hc as [Hc|[x Hx]]; [contradiction|].
      exists (current_chunk st ++ strip s). now rewrite <- app_assoc.
    + exact Hch.
    + exact Hf.
    + intros Ec. rewrite lead_ws_app_sentence. auto.
    + intros l a Ec. rewrite lead_ws_app_sentence. eauto.
  - destruct (LInv_emit overlap st HI Hne) as [Hch' Hf'].
    destruct HI as [Hc Hch Hf H0 Hl].
    destruct Hc as [Hc|Hc]; [contradiction|].
    destruct (emit_length st Hc) as [_ Hs].
    split; cbn [chunks current_chunk].
    + right. exists (slice_from (- overlap) (current_chunk st) ++ strip s).
      now rewrite <- app_assoc.
    + exact Hch'.
    + exact Hf'.
    + intros Ec. destruct (chunks st); discriminate.
    + intros l a Ec. apply app_inj_tail in Ec as [_ <-].
      rewrite lead_ws_app_sentence. symmetry. apply Hs.
Qed.

Lemma LInv_fold chunk_size overlap ss : forall st,
  LInv overlap st -> LInv overlap (fold_left (step chunk_size overlap) ss st).
Proof.
  induction ss as [|s ss IH]; simpl; intros st HI; [exact HI|].
  apply IH. now apply LInv_step.
Qed.

Lemma LInv_chunk_text text chunk_size overlap :
  consecutive (length_link overlap) (chunk_text text chunk_size overlap)
  /\ (forall c t, chunk_text text chunk_size overlap = c :: t ->
        Chunk.length c = length (Chunk.text c) + 1).
Proof.
  unfold chunk_text, finish.
  assert (HI : LInv overlap
                 (fold_left (step chunk_size overlap) (sentences_of text)
                    init_state)).
  { apply LInv_fold. split; simpl; auto; try discriminate.
    intros [|? ?] ? ?; discriminate. }
  destruct (nonempty (current_chunk _)) eqn:Hn.
  - apply LInv_emit; [exact HI | now apply nonempty_true].
  - destruct HI. auto.
Qed.

End LengthFacts.

Import LengthFacts.

(** X4: the [length] field of every chunk is the length of the raw
    buffer it was emitted from, and the chunks determine it exactly.
    For the first chunk it is the length of the text plus one, for the
    space trimmed at the end.  For every later chunk it is the length of
    the text, plus one, plus the number of whitespace characters at the
    front of the slice [current_chunk[-overlap:]] of the predecessor's
    buffer, and that buffer is the predecessor's text with one space
    after it and [length - len(text) - 1] whitespace characters before
    it. *)
Theorem chunk_length_is_buffer_length (text : str) (chunk_size overlap : Z) :
  (forall c rest,
      chunk_text text chunk_size overlap = c :: rest ->
      Chunk.length c = length (Chunk.text c) + 1)
  /\ (forall i a b,
        nth_error (chunk_text text chunk_size overlap) i = Some a ->
        nth_error (chunk_text text chunk_size overlap) (S i) = Some b ->
        Chunk.length b
        = lead_ws (slice_from (- overlap) (raw_of a))
          + length (Chunk.text b) + 1
        /\ length (raw_of a) = Chunk.length a).
Proof.
  destruct (LInv_chunk_text text chunk_size overlap) as [Hc Hf].
  split; [exact Hf|]. intros i a b Ha Hb.
  split; [exact (consecutive_nth _ _ i a b Hc Ha Hb)|].
  unfold raw_of. rewrite !length_app, repeat_length. simpl.
  pose proof (chunk_length_exceeds_text text chunk_size overlap a
                (nth_error_In _ _ Ha)).
  lia.
Qed.

Lemma chunk_length_is_buffer_length_witness :
  Chunk.length (Chunk.mk 0 (lit "aaaa.") 6) = length (lit "aaaa.") + 1
  /\ Chunk.length (Chunk.mk 2 (lit "bbbb. cccc.") 13)
     = lead_ws (slice_from (- 7) (raw_of (Chunk.mk 1 (lit "aaaa. bbbb.") 12)))
       + length (lit "bbbb. cccc.") + 1
  /\ lead_ws (slice_from (- 7) (raw_of (Chunk.mk 1 (lit "aaaa. bbbb.") 12))) = 1.
Proof.
  destruct (chunk_length_is_buffer_length (lit "aaaa. bbbb. cccc") 10 7)
    as [Hf Hn].
  split; [|split].
  - exact (Hf (Chunk.mk 0 (lit "aaaa.") 6)
              [Chunk.mk 1 (lit "aaaa. bbbb.") 12;
               Chunk.mk 2 (lit "bbbb. cccc.") 13] eq_refl).
  - exact (proj1 (Hn 1 (Chunk.mk 1 (lit "aaaa. bbbb.") 12)
                    (Chunk.mk 2 (lit "bbbb. cccc.") 13) eq_refl eq_refl)).
  - reflexivity.
Defined.

(** *** Soft size bound *)

Lemma slice_from_length (overlap : Z) (s : str) :
  (1 <= overlap)%Z ->
  (Z.of_nat (length (slice_from (- overlap) s)) <= overlap)%Z.
Proof.
  intros H. rewrite slice_last_chars by exact H. unfold last_chars.
  rewrite length_skipn. lia.
Qed.

(** X5: with [overlap >= 1], if every rebuilt sentence unit (trimmed,
    plus ". ") has at most [m] characters, every chunk's recorded length
    is at most [max(chunk_size, overlap + m)]: the size is a soft target
    that only a long sentence, with the overlap before it, exceeds. *)
Theorem chunk_length_bound (text : str) (chunk_size overlap : Z) (m : nat)
    (c : Chunk.t) :
  (1 <= overlap)%Z ->
  Forall (fun s => length (strip s) + 2 <= m) (sentences_of text) ->
  In c (chunk_text text chunk_size overlap) ->
  (Z.of_nat (Chunk.length c) <= Z.max chunk_size (overlap + Z.of_nat m))%Z.
Proof.
  intros Ho Hm Hin. apply In_nth_error in Hin as [i E].
  rewrite Forall_forall in Hm.
  assert (Hs : forall s, In s (sentences_of text) ->
                         length (strip s ++ lit ". ") <= m).
  { intros s Hs. rewrite length_app. simpl. exact (Hm s Hs). }
  destruct (chunk_text_from_buffer
              (fun buf => (Z.of_nat (length buf)
                           <= Z.max chunk_size (overlap + Z.of_nat m))%Z)
              text chunk_size overlap)
    with (i := i) (c := c) as [buf [Hb [_ ->]]]; try exact E.
  - intros s Hin. specialize (Hs s Hin). lia.
  - intros cur s Hin _ _ Hle. rewrite length_app. lia.
  - intros cur s Hin _ _. rewrite length_app.
    pose proof (slice_from_length overlap cur Ho). specialize (Hs s Hin). lia.
  - exact Hb.
Qed.

Lemma chunk_length_bound_witness :
  (Z.of_nat 9 <= Z.max 10 (3 + Z.of_nat 6))%Z.
Proof.
  apply (chunk_length_bound (lit "aaaa. bbbb. cccc") 10 3 6
           (Chunk.mk 1 (lit "a. bbbb.") 9)).
  - lia.
  - repeat constructor.
  - simpl. right. left. reflexivity.
Defined.

(** *** Nothing is dropped *)

(** ['. '.join(parts)] *)
Fixpoint join_dot_space (parts : list str) : str :=
  match parts with
  | [] => []
  | p :: ps =>
      match ps with
      | [] => p
      | _ :: _ => p ++ lit ". " ++ join_dot_space ps
      end
  end.

Lemma join_cons_head c parts :
  parts <> [] -> join_dot_space (cons_head c parts) = c :: join_dot_space parts.
Proof.
  destruct parts as [|p [|q ps]]; [contradiction| |]; reflexivity.
Qed.

Lemma split_join_bounded n : forall s, length s <= n ->
  join_dot_space (split_dot_space s) = s.
Proof.
  induction n as [|n IH]; intros s H.
  - destruct s; [reflexivity | simpl in H; lia].
  - destruct s as [|c [|d s]]; [reflexivity | reflexivity |].
    rewrite split_cons2. simpl in H.
    destruct (Ascii.eqb c "."%char && Ascii.eqb d " "%char) eqn:C.
    + apply andb_true_iff in C as [Cc Cd].
      apply Ascii.eqb_eq in Cc, Cd. subst c d.
      pose proof (proj1 (split_total s)) as Hne.
      pose proof (IH s ltac:(lia)) as E.
      destruct (split_dot_space s) as [|p ps]; [contradiction|].
      change (join_dot_space ([] :: p :: ps))
        with (lit ". " ++ join_dot_space (p :: ps)).
      now rewrite E.
    + rewrite join_cons_head by apply split_total.
      now rewrite (IH (d :: s)) by (simpl; lia).
Qed.

(** X6: joining the sentence units with ". " gives back the text with
    its newlines replaced by spaces: the split loses no character. *)
Theorem sentences_join (text : str) :
  join_dot_space (sentences_of text) = replace_newline text.
Proof.
  unfold sentences_of. apply (split_join_bounded (length (replace_newline text))).
  lia.
Qed.

Definition covered (st : loop_state) (u : str) : Prop :=
  (exists c, In c (chunks st) /\ infix (strip u ++ lit ".") (Chunk.text c))
  \/ infix (strip u ++ lit ". ") (current_chunk st).

Lemma dotted_head (u : str) :
  exists c r, strip u ++ lit "." = c :: r /\ is_space c = false.
Proof.
  destruct (strip u) as [|c r] eqn:E.
  - exists "."%char, []. split; reflexivity.
  - exists c, (r ++ lit "."). split; [reflexivity | exact (strip_head _ _ _ E)].
Qed.

(** A rebuilt sentence inside a buffer survives the trimming of the
    buffer, up to its final space. *)
Lemma infix_sentence_strip (u cur : str) :
  infix (strip u ++ lit ". ") cur -> infix (strip u ++ lit ".") (strip cur).
Proof.
  intros [a [b ->]]. destruct (dotted_head u) as [c [r [E Hc]]].
  apply (infix_strip _ _ c "."%char r (strip u)); auto.
  exists a, (" "%char :: b). now rewrite <- !app_assoc.
Qed.

Lemma covered_step chunk_size overlap st s u :
  covered st u -> covered (step chunk_size overlap st s) u.
Proof.
  intros [[c [Hin Hi]]|[a [b E]]];
    destruct (step_cases chunk_size overlap st s)
      as [[E0 ->]|[[Hne [Hle ->]]|[Hne [Hgt ->]]]].
  - left. exists c. auto.
  - left. exists c. auto.
  - left. exists c. split; [|exact Hi]. simpl. apply in_or_app. now left.
  - rewrite E0 in E. destruct a; [destruct (strip u)|]; discriminate.
  - right. simpl. exists a, (b ++ strip s ++ lit ". ").
    rewrite E, <- !app_assoc. reflexivity.
  - left. exists (emit st). split; [simpl; apply in_or_app; right; now left|].
    simpl. apply infix_sentence_strip. now exists a, b.
Qed.

Lemma covered_new chunk_size overlap st s :
  covered (step chunk_size overlap st s) s.
Proof.
  right.
  destruct (step_cases chunk_size overlap st s)
    as [[E0 ->]|[[Hne [Hle ->]]|[Hne [Hgt ->]]]]; simpl.
  - exists [], []. now rewrite app_nil_r.
  - exists (current_chunk st), []. now rewrite app_nil_r.
  - exists (slice_from (- overlap) (current_chunk st)), [].
    now rewrite app_nil_r.
Qed.

Lemma covered_fold chunk_size overlap l : forall st u,
  covered st u -> covered (fold_left (step chunk_size overlap) l st) u.
Proof.
  induction l as [|s l IH]; intros st u H; [exact H|].
  simpl. apply IH. now apply covered_step.
Qed.

Lemma covered_fold_in chunk_size overlap l : forall st u,
  In u l -> covered (fold_left (step chunk_size overlap) l st) u.
Proof.
  induction l as [|s l IH]; intros st u Hin; [destruct Hin|].
  destruct Hin as [->|Hin]; simpl.
  - apply covered_fold, covered_new.
  - now apply IH.
Qed.

(** X7: every sentence unit of the text, trimmed and with its full
    stop, occurs in the text of at least one returned chunk. *)
Theorem chunk_text_covers_sentences (text : str) (chunk_size overlap : Z)
    (s : str) :
  In s (sentences_of text) ->
  exists c, In c (chunk_text text chunk_size overlap)
            /\ infix (strip s ++ lit ".") (Chunk.text c).
Proof.
  intros Hin. unfold chunk_text.
  pose proof (covered_fold_in chunk_size overlap (sentences_of text)
                init_state s Hin) as H.
  set (st := fold_left _ _ _) in *. unfold finish.
  destruct H as [[c [Hc Hi]]|Hi].
  - exists c. split; [|exact Hi].
    destruct (nonempty (current_chunk st)); [apply in_or_app; now left | exact Hc].
  - assert (Hn : nonempty (current_chunk st) = true).
    { destruct Hi as [a [b ->]]. destruct a; [destruct (strip s)|]; reflexivity. }
    rewrite Hn. exists (emit st). split; [apply in_or_app; right; now left|].
    simpl. now apply infix_sentence_strip.
Qed.

Lemma chunk_text_covers_sentences_witness :
  exists c, In c (chunk_text (lit "aaaa. bbbb. cccc") 10 3)
            /\ infix (strip (lit "bbbb") ++ lit ".") (Chunk.text c).
Proof.
  apply (chunk_text_covers_sentences (lit "aaaa. bbbb. cccc") 10 3 (lit "bbbb")).
  simpl. right. left. reflexivity.
Defined.

(** * The rest of utils/pdf_processor.py *)

Module PDFFiles.
Import PDFProcessor.

(** What [PdfReader] finds at a path: the text of each page, or a file
    on which the reader or a page's [extract_text] raises. *)
Inductive body :=
| Unreadable
| Pages (pages : list str).

(** A path with its [name], its [stem] and the file behind it. *)
Record pdf_path := { name : str; stem : str; content : body }.

(** [str(n)] for a non-negative [int]. *)
Definition decimal (n : nat) : str :=
  lit (NilEmpty.string_of_uint (Nat.to_uint n)).

Definition newline : str := ["010"%char].

(** [f"\n--- Page {page_num} ---\n{page_text}\n"] *)
Definition page_block (page_num : nat) (page_text : str) : str :=
  newline ++ lit "--- Page " ++ decimal page_num ++ lit " ---" ++ newline
  ++ page_text ++ newline.

(** Any exception inside the [try] gives the empty string. *)
Definition extract_text_from_pdf (pdf : body) : str :=
  match pdf with
  | Unreadable => []
  | Pages pages =>
      fold_left (fun text p => text ++ page_block (fst p) (snd p))
        (combine (seq 1 (length pages)) pages) []
  end.

(** The output directory: the files written so far, latest first. *)
Definition output_dir := list (str * Card.t).

Fixpoint str_eqb (a b : str) : bool :=
  match a, b with
  | [], [] => true
  | x :: a', y :: b' => Ascii.eqb x y && str_eqb a' b'
  | _, _ => false
  end.

Definition write (out : output_dir) (file : str) (data : Card.t) : output_dir :=
  (file, data) :: out.


(** [s.replace(a, b)] for single characters. *)
Definition replace_char (a b : ascii) (s : str) : str :=
  map (fun c => if Ascii.eqb c a then b else c) s.

(** [f"{card_name.lower().replace(' ', '_')}.json"] *)
Definition output_name (card_name : str) : str :=
  replace_char " " "_" (lower card_name) ++ lit ".json".

(** The two keys added to each chunk. *)
Definition tag (card_name source_file : str) (c : Chunk.t) : CardChunk.t :=
  CardChunk.mk (Chunk.chunk_id c) (Chunk.text c) (Chunk.length c)
    card_name source_file.

Section Files.

(** Whether [open(output_file, 'w')] creates the file: the file system's
    answer for a file name.  It refuses, with an [OSError], a name that
    points outside the output directory into a directory that does not
    exist, as one with a path separator does. *)
Variable can_open : str -> bool.

Definition process_card_pdf (out : output_dir) (path : pdf_path) (card_name : str)
  : outcome (option Card.t) * output_dir :=
  let full_text := extract_text_from_pdf (content path) in
  if negb (nonempty full_text) then (Returned None, out)
  else
    let chunks := map (tag card_name (name path)) (chunk_text full_text 500 100) in
    let processed_data :=
      Card.mk card_name (name path) (length full_text) (length chunks) chunks in
    if can_open (output_name card_name)
    then (Returned (Some processed_data),
          write out (output_name card_name) processed_data)
    else (Raised OSError, out).

(** [str.title], left to the caller of the model. *)
Variable title : str -> str.

(** The loop [for pdf_file in pdf_files]; nothing catches what
    [process_card_pdf] raises. *)
Fixpoint process_files (out : output_dir) (pdf_files : list pdf_path)
    (processed_cards : list Card.t) : outcome (list Card.t) * output_dir :=
  match pdf_files with
  | [] => (Returned processed_cards, out)
  | pdf_file :: rest =>
      let card_name := title (replace_char "_" " " (stem pdf_file)) in
      match process_card_pdf out pdf_file card_name with
      | (Returned (Some result), out') =>
          process_files out' rest (processed_cards ++ [result])
      | (Returned None, out') => process_files out' rest processed_cards
      | (Raised e, out') => (Raised e, out')
      end
  end.

(** [pdf_dir] is [None] when the directory does not exist, otherwise the
    files that [glob("*.pdf")] lists. *)
Definition process_all_pdfs (pdf_dir : option (list pdf_path)) (out : output_dir)
  : outcome (list Card.t) * output_dir :=
  match pdf_dir with
  | None => (Returned [], out)
  | Some [] => (Returned [], out)
  | Some pdf_files => process_files out pdf_files []
  end.

End Files.

End PDFFiles.

Module PDFFilesFacts.
Import PDFProcessor ChunkerFacts ChunkerMore PDFFiles.

Lemma fold_left_blocks {A} (f : A -> str) (l : list A) : forall acc,
  fold_left (fun text p => text ++ f p) l acc = acc ++ concat (map f l).
Proof.
  induction l as [|x l IH]; intros acc; simpl.
  - now rewrite app_nil_r.
  - now rewrite IH, <- app_assoc.
Qed.

Lemma extract_text_pages pages :
  extract_text_from_pdf (Pages pages)
  = concat (map (fun p => page_block (fst p) (snd p))
              (combine (seq 1 (length pages)) pages)).
Proof. unfold extract_text_from_pdf. now rewrite fold_left_blocks. Qed.

Lemma chunk_text_nonempty text chunk_size overlap :
  chunk_text text chunk_size overlap <> [].
Proof.
  unfold chunk_text.
  destruct (weight_fold chunk_size overlap (sentences_of text) init_state)
    as [_ N].
  assert (Hne : sentences_of text <> []) by apply split_total.
  specialize (N (or_intror Hne)). unfold finish. rewrite N.
  now destruct (chunks _).
Qed.



(** A card as [process_card_pdf] builds it. *)
Record well_formed (card : Card.t) : Prop := {
  wf_nonempty : Card.chunks card <> [];
  wf_count : Card.num_chunks card = length (Card.chunks card);
  wf_chunks : forall i ch,
    nth_error (Card.chunks card) i = Some ch ->
    CardChunk.chunk_id ch = i
    /\ CardChunk.card_name ch = Card.card_name card
    /\ CardChunk.source_file ch = Card.source_file card
}.

Lemma process_card_pdf_some can_open out path card_name card out' :
  process_card_pdf can_open out path card_name = (Returned (Some card), out') ->
  card = Card.mk card_name (name path)
           (length (extract_text_from_pdf (content path)))
           (length (chunk_text (extract_text_from_pdf (content path)) 500 100))
           (map (tag card_name (name path))
              (chunk_text (extract_text_from_pdf (content path)) 500 100))
  /\ extract_text_from_pdf (content path) <> []
  /\ can_open (output_name card_name) = true
  /\ out' = write out (output_name card_name) card.
Proof.
  unfold process_card_pdf.
  destruct (extract_text_from_pdf (content path)) as [|x t] eqn:E;
    [discriminate|].
  simpl negb. cbv iota.
  destruct (can_open (output_name card_name)); [|discriminate].
  intros [= <- <-].
  rewrite length_map. repeat split. discriminate.
Qed.


Lemma process_card_pdf_raised can_open out path card_name e out' :
  process_card_pdf can_open out path card_name = (Raised e, out') ->
  e = OSError
  /\ extract_text_from_pdf (content path) <> []
  /\ can_open (output_name card_name) = false
  /\ out' = out.
Proof.
  unfold process_card_pdf.
  destruct (extract_text_from_pdf (content path)) as [|x t] eqn:E;
    [discriminate|].
  simpl negb. cbv iota.
  destruct (can_open (output_name card_name)); [discriminate|].
  intros [= <- <-]. repeat split. discriminate.
Qed.

Lemma built_card_well_formed card_name source text :
  well_formed (Card.mk card_name source (length text)
                 (length (chunk_text text 500 100))
                 (map (tag card_name source) (chunk_text text 500 100))).
Proof.
  split; simpl.
  - intros E. apply map_eq_nil in E. exact (chunk_text_nonempty _ _ _ E).
  - now rewrite length_map.
  - intros i ch E. rewrite nth_error_map in E.
    destruct (nth_error (chunk_text text 500 100) i) as [c|] eqn:Ec;
      [|discriminate].
    injection E as <-. simpl. repeat split.
    destruct (chunk_text_from_buffer (fun _ => True) text 500 100
                (fun _ _ => I) (fun _ _ _ _ _ _ => I) (fun _ _ _ _ _ => I)
                i c Ec) as [buf [_ [_ ->]]].
    reflexivity.
Qed.

Section Files.

Variable can_open : str -> bool.
Variable title : str -> str.

(** The card name made for a listed file. *)
Definition card_name_of (f : pdf_path) : str :=
  title (replace_char "_" " " (stem f)).

(** What holds of every card returned for the files [files]. *)
Definition listed (files : list pdf_path) (card : Card.t) : Prop :=
  well_formed card
  /\ exists f, In f files
       /\ Card.card_name card = title (replace_char "_" " " (stem f))
       /\ Card.source_file card = name f.

Lemma listed_cons f files card : listed files card -> listed (f :: files) card.
Proof.
  intros [Hw [f' [Hin H]]]. split; [exact Hw|]. exists f'. simpl. auto.
Qed.

Lemma process_files_spec : forall files out acc cards out',
  process_files can_open title out files acc = (Returned cards, out') ->
  exists more,
    cards = acc ++ more
    /\ length more <= length files
    /\ Forall (listed files) more.
Proof.
  induction files as [|f files IH]; intros out acc cards out' E; simpl in E.
  - injection E as <- <-. exists []. rewrite app_nil_r. auto.
  - destruct (process_card_pdf can_open out f _) as [[[card|]|e] out1] eqn:P.
    + destruct (IH _ _ _ _ E) as [more [-> [Hl Hf]]].
      exists (card :: more). rewrite <- app_assoc. split; [reflexivity|].
      split; [simpl; lia|].
      apply process_card_pdf_some in P as [-> _].
      constructor.
      * split; [apply built_card_well_formed|].
        exists f. simpl. auto.
      * eapply Forall_impl; [|exact Hf]. intros c. apply listed_cons.
    + destruct (IH _ _ _ _ E) as [more [-> [Hl Hf]]].
      exists more. split; [reflexivity|]. split; [simpl; lia|].
      eapply Forall_impl; [|exact Hf]. intros c. apply listed_cons.
    + discriminate.
Qed.

(** The loop raises only at a file with text whose output file cannot
    be created. *)
Lemma process_files_raised : forall files out acc e out',
  process_files can_open title out files acc = (Raised e, out') ->
  e = OSError
  /\ exists f, In f files
       /\ extract_text_from_pdf (content f) <> []
       /\ can_open (output_name (card_name_of f)) = false.
Proof.
  induction files as [|f files IH]; intros out acc e out' E; simpl in E.
  - discriminate.
  - destruct (process_card_pdf can_open out f _) as [[[card|]|e1] out1] eqn:P.
    + destruct (IH _ _ _ _ E) as [-> [f' [Hin H]]].
      split; [reflexivity|]. exists f'. simpl. auto.
    + destruct (IH _ _ _ _ E) as [-> [f' [Hin H]]].
      split; [reflexivity|]. exists f'. simpl. auto.
    + injection E as <- <-.
      apply process_card_pdf_raised in P as [-> [Hne [Hc _]]].
      split; [reflexivity|]. exists f. simpl. auto.
Qed.

(** With every output file creatable the loop returns. *)
Lemma process_files_returns : forall files out acc,
  (forall f, In f files -> can_open (output_name (card_name_of f)) = true) ->
  exists cards out',
    process_files can_open title out files acc = (Returned cards, out').
Proof.
  intros files out acc H.
  destruct (process_files can_open title out files acc) as [[cards|e] out'] eqn:E.
  - now exists cards, out'.
  - apply process_files_raised in E as [_ [f [Hin [_ Hc]]]].
    rewrite (H f Hin) in Hc. discriminate.
Qed.

End Files.

End PDFFilesFacts.

Import PDFFiles PDFFilesFacts.

(** *** Text extraction *)

(** X8: [extract_text_from_pdf] returns the empty string exactly when
    the file cannot be read or has no page; a PDF with pages gives a
    non-empty text even if no page has any text, because of the page
    markers. *)
Theorem extract_text_empty_iff (pdf : body) :
  extract_text_from_pdf pdf = [] <-> pdf = Unreadable \/ pdf = Pages [].
Proof.
  split.
  - destruct pdf as [|[|p pages]]; auto.
    rewrite extract_text_pages. discriminate.
  - intros [->| ->]; reflexivity.
Qed.

(** *** One card *)


(** *** All cards *)

(** X10: every card that [process_all_pdfs] returns is well formed (at
    least one chunk, consistent count, numbering and tags) and comes
    from one of the listed files, named by [title] of its stem with
    underscores replaced by spaces; there are at most as many cards as
    files, and none when the directory is missing.  The call raises
    only when the output file of a listed file with text cannot be
    created, and returns when every listed file's output file can. *)
Theorem process_all_pdfs_cards (can_open : str -> bool) (title : str -> str)
    (pdf_dir : option (list pdf_path)) (out : output_dir) :
  match fst (process_all_pdfs can_open title pdf_dir out) with
  | Returned cards =>
      match pdf_dir with
      | None => cards = []
      | Some files =>
          length cards <= length files
          /\ Forall (fun card =>
                       well_formed card
                       /\ exists f, In f files
                            /\ Card.card_name card
                               = title (replace_char "_" " " (stem f))
                            /\ Card.source_file card = name f) cards
      end
  | Raised e =>
      e = OSError
      /\ exists files f,
           pdf_dir = Some files /\ In f files
           /\ extract_text_from_pdf (content f) <> []
           /\ can_open (output_name (title (replace_char "_" " " (stem f))))
              = false
  end
  /\ ((forall files f,
         pdf_dir = Some files -> In f files ->
         can_open (output_name (title (replace_char "_" " " (stem f)))) = true) ->
      exists cards out',
        process_all_pdfs can_open title pdf_dir out = (Returned cards, out')).
Proof.
  destruct pdf_dir as [[|f files]|].
  - split; [simpl; auto|]. intros _. now exists [], out.
  - unfold process_all_pdfs. split.
    + destruct (process_files can_open title out (f :: files) [])
        as [[cards|e] out'] eqn:E; cbn [fst].
      * apply process_files_spec in E as [more [-> H]]. exact H.
      * apply process_files_raised in E as [-> [f' [Hin H]]].
        split; [reflexivity|]. now exists (f :: files), f'.
    + intros H. apply process_files_returns.
      intros f' Hin. now apply (H (f :: files)).
  - split; [reflexivity|]. intros _. now exists [], out.
Qed.

(** * Further properties of the RAG system *)

Module RagMore.
Import RAGSystem RagFacts.

(** *** The model of the index search sorts *)

Definition le_dist (a b : Z * Q) : Prop := (snd a <= snd b)%Q.

Lemma insert_perm x l : Permutation (Faiss.insert x l) (x :: l).
Proof.
  induction l as [|y l IH]; simpl; [reflexivity|].
  destruct (Qle_bool (snd x) (snd y)); [reflexivity|].
  rewrite IH. apply perm_swap.
Qed.

Lemma sort_perm l : Permutation (Faiss.sort l) l.
Proof.
  induction l as [|x l IH]; simpl; [reflexivity|].
  rewrite insert_perm. now constructor.
Qed.

Lemma insert_sorted x l :
  StronglySorted le_dist l -> StronglySorted le_dist (Faiss.insert x l).
Proof.
  induction 1 as [|y l Hs IH Hy]; simpl.
  - repeat constructor.
  - destruct (Qle_bool (snd x) (snd y)) eqn:C.
    + apply Qle_bool_iff in C. constructor; [now constructor|].
      constructor; [exact C|].
      eapply Forall_impl; [|exact Hy]. intros z Hz. unfold le_dist in *.
      now apply Qle_trans with (snd y).
    + constructor; [exact IH|].
      assert (Hyx : le_dist y x).
      { unfold le_dist. apply Qlt_le_weak, Qnot_le_lt. intros H.
        apply Qle_bool_iff in H. congruence. }
      apply Forall_forall. intros z Hz.
      apply (Permutation_in _ (insert_perm x l)) in Hz.
      destruct Hz as [<-|Hz]; [exact Hyx|].
      rewrite Forall_forall in Hy. now apply Hy.
Qed.

Lemma sort_sorted l : StronglySorted le_dist (Faiss.sort l).
Proof.
  induction l as [|x l IH]; simpl; [constructor | now apply insert_sorted].
Qed.

Lemma firstn_sorted {A} (R : A -> A -> Prop) l : forall n,
  StronglySorted R l -> StronglySorted R (firstn n l).
Proof.
  induction l as [|x l IH]; intros [|n] H; simpl; try constructor.
  - apply IH. now inversion H.
  - inversion H as [|? ? _ HF]; subst. apply Forall_forall. intros z Hz.
    rewrite Forall_forall in HF. apply HF.
    rewrite <- (firstn_skipn n l). apply in_or_app. now left.
Qed.

Lemma firstn_NoDup {A} (l : list A) n : NoDup l -> NoDup (firstn n l).
Proof.
  intros H. rewrite <- (firstn_skipn n l) in H.
  exact (NoDup_app_remove_r _ _ H).
Qed.

Lemma map_fst_combine {A B} (l : list A) : forall (l' : list B),
  length l = length l' -> map fst (combine l l') = l.
Proof.
  induction l as [|x l IH]; intros [|y l'] H; simpl in *; try discriminate;
    [reflexivity|].
  f_equal. apply IH. lia.
Qed.

Lemma scored_positions idx q :
  map (fun p => Z.to_nat (fst p)) (Faiss.scored idx q)
  = seq 0 (Faiss.ntotal idx).
Proof.
  unfold Faiss.scored. rewrite <- (map_map fst Z.to_nat).
  rewrite map_fst_combine by (now rewrite !length_map, length_seq).
  rewrite map_map. erewrite map_ext; [apply map_id|].
  intros n. apply Nat2Z.id.
Qed.

Lemma scored_length idx q : length (Faiss.scored idx q) = Faiss.ntotal idx.
Proof.
  unfold Faiss.scored, Faiss.ntotal.
  rewrite length_combine, !length_map, length_seq. lia.
Qed.

(** With at least [k] vectors stored the search answers without
    padding. *)
Lemma knn_no_padding idx k q :
  k <= Faiss.ntotal idx ->
  Faiss.knn idx k q = firstn k (Faiss.sort (Faiss.scored idx q)).
Proof.
  intros H. unfold Faiss.knn.
  assert (L : length (firstn k (Faiss.sort (Faiss.scored idx q))) = k).
  { rewrite length_firstn, (Permutation_length (sort_perm _)), scored_length.
    lia. }
  rewrite L, Nat.sub_diag. simpl. apply app_nil_r.
Qed.

Lemma knn_positions_NoDup idx k q :
  k <= Faiss.ntotal idx ->
  NoDup (map (fun p => Z.to_nat (fst p)) (Faiss.knn idx k q)).
Proof.
  intros H. rewrite knn_no_padding by exact H. rewrite <- firstn_map.
  apply firstn_NoDup.
  apply (Permutation_NoDup
           (Permutation_sym (Permutation_map _ (sort_perm (Faiss.scored idx q))))).
  rewrite scored_positions. apply seq_NoDup.
Qed.

Lemma knn_sorted idx k q :
  k <= Faiss.ntotal idx -> StronglySorted le_dist (Faiss.knn idx k q).
Proof.
  intros H. rewrite knn_no_padding by exact H.
  apply firstn_sorted, sort_sorted.
Qed.

(** *** The result loop *)

(** How a result relates to the candidate it was built from. *)
Definition built_from (cs : list CardChunk.t) (cand : Z * Q)
    (r : SearchResult.t) : Prop :=
  nth_error cs (Z.to_nat (fst cand)) = Some (SearchResult.chunk r)
  /\ SearchResult.score r = snd cand
  /\ SearchResult.relevance r = relevance_of (snd cand).

(** Without a filter, candidates at stored positions all become
    results as long as [k] is not reached before the last of them. *)
Lemma collect_results_all cs k : forall cands results,
  (forall cand, In cand cands ->
     exists j ch, fst cand = Z.of_nat j /\ nth_error cs j = Some ch) ->
  (Z.of_nat (length results + length cands) <= k)%Z ->
  exists rs,
    collect_results cs k None cands results = Returned (results ++ rs)
    /\ Forall2 (built_from cs) cands rs.
Proof.
  induction cands as [|[idx dist] cands IH]; intros results Hc Hk.
  - exists []. rewrite app_nil_r. split; [reflexivity | constructor].
  - destruct (Hc (idx, dist) (or_introl eq_refl)) as [j [ch [Ej Ech]]].
    simpl in Ej. subst idx. simpl collect_results.
    assert (Hj : j < length cs) by (apply nth_error_Some; now rewrite Ech).
    destruct (Z.ltb_spec (Z.of_nat j) (Z.of_nat (length cs))); [|lia].
    unfold getitem. destruct (Z.ltb_spec (Z.of_nat j) 0); [lia|].
    destruct (Z.ltb_spec (Z.of_nat j) 0); [lia|].
    rewrite Nat2Z.id, Ech. cbn [passes].
    set (r := SearchResult.mk ch dist (relevance_of dist)).
    assert (Hr : built_from cs (Z.of_nat j, dist) r).
    { unfold built_from. simpl. rewrite Nat2Z.id. auto. }
    simpl length in Hk.
    destruct (Z.geb_spec (Z.of_nat (length (results ++ [r]))) k) as [Hge|Hlt].
    + rewrite length_app in Hge. simpl in Hge.
      destruct cands; [|simpl in Hk; lia].
      exists [r]. split; [reflexivity | constructor; [exact Hr | constructor]].
    + destruct (IH (results ++ [r])) as [rs [E F]].
      * intros cand Hin. apply Hc. now right.
      * rewrite length_app. simpl. lia.
      * exists (r :: rs). rewrite E, <- app_assoc. split; [reflexivity|].
        now constructor.
Qed.

(** The loop never returns more than [k] results. *)
Lemma collect_results_length cs k card_filter : forall cands results rs,
  (Z.of_nat (length results) < k)%Z ->
  collect_results cs k card_filter cands results = Returned rs ->
  (Z.of_nat (length rs) <= k)%Z.
Proof.
  induction cands as [|[idx dist] cands IH]; intros results rs Hk E.
  - simpl in E. injection E as <-. lia.
  - simpl in E. destruct (idx <? Z.of_nat (length cs))%Z.
    + destruct (getitem cs idx) as [c|e]; [|discriminate].
      destruct (passes card_filter c).
      * destruct (Z.geb_spec
                    (Z.of_nat (length (results ++
                       [SearchResult.mk c dist (relevance_of dist)]))) k)
          as [Hge|Hlt].
        -- injection E as <-. rewrite length_app. simpl. lia.
        -- exact (IH _ _ Hlt E).
      * destruct (Z.geb_spec (Z.of_nat (length results)) k) as [Hge|Hlt];
          [lia | exact (IH _ _ Hk E)].
    + exact (IH _ _ Hk E).
Qed.

(** With a non-empty chunk list no lookup fails: labels are [-1] or
    positions, and [-1] is the last chunk. *)
Lemma collect_results_returns cs k card_filter : forall cands results,
  cs <> [] ->
  (forall cand, In cand cands -> (-1 <= fst cand)%Z) ->
  exists rs, collect_results cs k card_filter cands results = Returned rs.
Proof.
  intros cands results Hne. revert results.
  induction cands as [|[idx dist] cands IH]; intros results Hc.
  - now exists results.
  - simpl. assert (Hi : (-1 <= idx)%Z) by (apply (Hc (idx, dist)); now left).
    assert (Hc' : forall cand, In cand cands -> (-1 <= fst cand)%Z)
      by (intros cand Hin; apply Hc; now right).
    destruct (Z.ltb_spec idx (Z.of_nat (length cs))) as [Hlt|Hge];
      [|now apply IH].
    assert (G : exists c, getitem cs idx = Returned c).
    { unfold getitem. assert (0 < length cs) by (destruct cs; [contradiction | simpl; lia]).
      destruct (Z.ltb_spec idx 0).
      - destruct (Z.ltb_spec (Z.of_nat (length cs) + idx) 0); [lia|].
        destruct (nth_error cs (Z.to_nat (Z.of_nat (length cs) + idx))) eqn:N;
          [eauto|]. apply nth_error_None in N. lia.
      - destruct (Z.ltb_spec idx 0); [lia|].
        destruct (nth_error cs (Z.to_nat idx)) eqn:N; [eauto|].
        apply nth_error_None in N. lia. }
    destruct G as [c ->].
    destruct (Z.of_nat _ >=? k)%Z; [eauto | now apply IH].
Qed.

(** With an empty chunk list the first padding label raises. *)
Lemma collect_results_padding_raises k card_filter dist cands results :
  collect_results [] k card_filter (((-1)%Z, dist) :: cands) results
  = Raised IndexError.
Proof. reflexivity. Qed.

(** The empty string as a filter accepts every chunk, like no filter. *)
Lemma collect_results_empty_filter cs k : forall cands results,
  collect_results cs k (Some []) cands results
  = collect_results cs k None cands results.
Proof.
  induction cands as [|[idx dist] cands IH]; intros results; [reflexivity|].
  simpl. destruct (idx <? Z.of_nat (length cs))%Z; [|apply IH].
  destruct (getitem cs idx) as [c|e]; [|reflexivity].
  replace (contains [] (lower (CardChunk.card_name c))) with true
    by (now destruct (lower (CardChunk.card_name c))).
  destruct (_ >=? k)%Z; [reflexivity | apply IH].
Qed.

(** When no chunk passes the filter nothing is collected. *)
Lemma collect_results_none_pass cs k card_filter : forall cands,
  cs <> [] ->
  (forall cand, In cand cands -> (-1 <= fst cand)%Z) ->
  (0 < k)%Z ->
  Forall (fun c => passes card_filter c = false) cs ->
  collect_results cs k card_filter cands [] = Returned [].
Proof.
  intros cands Hne Hc Hk Hf. induction cands as [|[idx dist] cands IH];
    [reflexivity|].
  simpl. assert (Hc' : forall cand, In cand cands -> (-1 <= fst cand)%Z)
    by (intros cand Hin; apply Hc; now right).
  destruct (Z.ltb_spec idx (Z.of_nat (length cs))) as [Hlt|Hge];
    [|now apply IH].
  destruct (collect_results_returns cs k card_filter [(idx, dist)] [] Hne)
    as [rs0 E0].
  { intros cand [<-|[]]. apply (Hc (idx, dist)). now left. }
  simpl in E0. destruct (Z.ltb_spec idx (Z.of_nat (length cs))); [|lia].
  destruct (getitem cs idx) as [c|e] eqn:G; [|discriminate].
  assert (Hin : In c cs).
  { unfold getitem in G.
    destruct (_ <? 0)%Z in G; [discriminate|].
    destruct (nth_error cs _) eqn:N in G; [|discriminate].
    injection G as <-. exact (nth_error_In _ _ N). }
  rewrite Forall_forall in Hf. rewrite (Hf c Hin). simpl.
  destruct (Z.geb_spec 0 k); [lia | now apply IH].
Qed.

Lemma Forall2_in_right {A B} (R : A -> B -> Prop) l l' y :
  Forall2 R l l' -> In y l' -> exists x, In x l /\ R x y.
Proof.
  induction 1 as [|x y' l l' H F IH]; intros Hin; [destruct Hin|].
  destruct Hin as [<-|Hin].
  - exists x. split; [now left | exact H].
  - destruct (IH Hin) as [x' [Hx HR]]. exists x'. split; [now right | exact HR].
Qed.

End RagMore.

Import RAGSystem RagFacts RagMore.

(** *** How many results *)

(** X11: [search] never returns more than [k] results (and none for a
    [k] below 1). *)
Theorem search_length (model_dim : nat) (embed : str -> vec)
    (query : str) (k : Z) (card_filter : option str)
    (w w' : world) (rs : list SearchResult.t) :
  search model_dim embed query k card_filter w = (Returned rs, w') ->
  length rs <= Z.to_nat k.
Proof.
  rewrite search_run. destruct (index (self w)) as [i|].
  - cbv zeta. destruct (negb _); [discriminate|].
    destruct (Z.leb_spec (if negb (truthy card_filter) then k else k * 3) 0)
      as [|Hpos]; [discriminate|].
    intros [= E _].
    assert (Hk : (0 < k)%Z) by (destruct (negb _); lia).
    apply collect_results_length in E; simpl; lia.
  - intros [= <- _]. simpl. lia.
Qed.

Lemma search_length_witness :
  length [SearchResult.mk (Sample.mkc 0 "Fee 0." "Visa Platinum") 4
            (relevance_of 4)]
  <= Z.to_nat 1.
Proof.
  apply (search_length 384 Sample.embed (lit "fee?") 1 None
           (Sample.built [Sample.visa; Sample.amex])
           (Sample.built [Sample.visa; Sample.amex])).
  vm_compute. reflexivity.
Defined.

(** *** What search leaves alone *)

(** X12: [search] changes neither the index, nor the chunk list, nor
    the files, whether it returns or raises. *)
Theorem search_read_only (model_dim : nat) (embed : str -> vec)
    (query : str) (k : Z) (card_filter : option str) (w : world) :
  snd (search model_dim embed query k card_filter w) = w.
Proof.
  rewrite search_run. destruct (index (self w)) as [i|]; [|reflexivity].
  cbv zeta. destruct (negb _); [reflexivity|].
  destruct (_ <=? 0)%Z; reflexivity.
Qed.

(** *** When search returns *)

(** X13: with an index of the model's width, [k >= 1] and a non-empty
    chunk list, [search] returns a list: no lookup in the chunk list can
    fail, whatever the index holds. *)
Theorem search_returns (model_dim : nat) (embed : str -> vec)
    (query : str) (k : Z) (card_filter : option str) (w : world)
    (i : Faiss.IndexFlatL2) :
  index (self w) = Some i ->
  model_dim = Faiss.d i ->
  (1 <= k)%Z ->
  chunks (self w) <> [] ->
  exists rs, search model_dim embed query k card_filter w = (Returned rs, w).
Proof.
  intros Hi Hd Hk Hne. rewrite search_run, Hi. cbv zeta.
  rewrite Hd, Nat.eqb_refl. simpl negb. cbv iota.
  destruct (Z.leb_spec (if negb (truthy card_filter) then k else k * 3) 0)
    as [Hle|_]; [destruct (negb _); lia|].
  destruct (collect_results_returns (chunks (self w)) k card_filter
              (Faiss.knn i (Z.to_nat (if negb (truthy card_filter)
                                      then k else k * 3)) (embed query))
              [] Hne) as [rs E].
  - intros [a b] Hin. simpl.
    destruct (In_knn _ _ _ _ _ Hin) as [[-> _]|[j [_ [-> _]]]]; lia.
  - exists rs. now rewrite E.
Qed.

Lemma search_returns_witness :
  exists rs,
    search 384 Sample.embed (lit "fee?") 5 (Some (lit "visa"))
      (Sample.built [Sample.visa; Sample.amex])
    = (Returned rs, Sample.built [Sample.visa; Sample.amex]).
Proof.
  apply (search_returns 384 Sample.embed (lit "fee?") 5 (Some (lit "visa"))
           (Sample.built [Sample.visa; Sample.amex])
           {| Faiss.d := 384;
              Faiss.xb := map Sample.embed
                            [lit "Fee 0."; lit "Cash back 2%.";
                             lit "Dining 4x points."] |}).
  - vm_compute. reflexivity.
  - reflexivity.
  - lia.
  - discriminate.
Defined.

(** *** Asking for no more than is stored *)

(** X14: after [create_embeddings] returns, a search without filter for
    [1 <= k <= number of chunks] returns exactly [k] results, taken from
    [k] different positions of the chunk list, each with the distance
    from the query to the embedding of its own text, in order of
    non-decreasing distance. *)
Theorem search_within_stored (model_dim : nat) (embed : str -> vec)
    (cards : list Card.t) (w w' : world) (query : str) (k : Z) :
  create_embeddings model_dim embed cards w = (Returned tt, w') ->
  (1 <= k <= Z.of_nat (length (flat_map Card.chunks cards)))%Z ->
  exists rs ps,
    search model_dim embed query k None w' = (Returned rs, w')
    /\ Z.of_nat (length rs) = k
    /\ NoDup ps
    /\ Forall2 (fun r p =>
                  nth_error (flat_map Card.chunks cards) p
                  = Some (SearchResult.chunk r)
                  /\ SearchResult.score r
                     = Faiss.sqdist (embed query)
                         (embed (CardChunk.text (SearchResult.chunk r))))
         rs ps
    /\ StronglySorted Qle (map SearchResult.score rs).
Proof.
  rewrite create_embeddings_run. unfold batch.
  set (cs := flat_map Card.chunks cards).
  destruct cs as [|c0 cs'] eqn:B; [discriminate|]. rewrite <- B.
  destruct (Nat.eqb_spec model_dim (dimension (self w))) as [Hd|]; [|discriminate].
  intros [= <-] Hk. rewrite search_run. cbn [self index chunks].
  cbv zeta. cbn [Faiss.d truthy negb]. rewrite Hd, Nat.eqb_refl.
  cbn [negb]. destruct (Z.leb_spec k 0); [lia|].
  set (i := {| Faiss.d := dimension (self w);
               Faiss.xb := map embed (map CardChunk.text cs) |}).
  assert (Hn : Faiss.ntotal i = length cs)
    by (unfold Faiss.ntotal, i; simpl; now rewrite !length_map).
  assert (Hkn : Z.to_nat k <= Faiss.ntotal i) by lia.
  set (cands := Faiss.knn i (Z.to_nat k) (embed query)).
  assert (Hin : forall cand, In cand cands ->
            exists j ch, fst cand = Z.of_nat j /\ nth_error cs j = Some ch
                         /\ snd cand
                            = Faiss.sqdist (embed query) (embed (CardChunk.text ch))).
  { intros [a b] H0. unfold cands in H0. rewrite knn_no_padding in H0 by exact Hkn.
    assert (H1 : In (a, b) (Faiss.sort (Faiss.scored i (embed query)))).
    { rewrite <- (firstn_skipn (Z.to_nat k)). apply in_or_app. now left. }
    apply In_sort in H1. unfold Faiss.scored, Faiss.ntotal in H1.
    destruct (In_positions _ _ _ _ _ H1) as [j [v [-> [Hv ->]]]].
    unfold i in Hv. simpl in Hv. rewrite map_map, nth_error_map in Hv.
    destruct (nth_error cs j) as [ch|] eqn:Ec; [|discriminate].
    injection Hv as <-. exists j, ch. auto. }
  destruct (collect_results_all cs k cands []) as [rs [E F]].
  - intros cand H0. destruct (Hin cand H0) as [j [ch [H1 [H2 _]]]]. eauto.
  - unfold cands. rewrite knn_length. simpl. lia.
  - simpl in E. exists rs, (map (fun p => Z.to_nat (fst p)) cands).
    split; [now rewrite E|].
    split; [rewrite <- (Forall2_length F); unfold cands; rewrite knn_length; lia|].
    split; [apply knn_positions_NoDup; exact Hkn|].
    pose proof (knn_sorted i (Z.to_nat k) (embed query) Hkn) as S.
    fold cands in S. clearbody cands. clear E.
    induction F as [|cand r cands' rs' [H1 [H2 H3]] F IH].
    + split; constructor.
    + destruct IH as [IH1 IH2].
      * intros c Hc. apply Hin. now right.
      * now inversion S.
      * split.
        -- constructor; [|exact IH1]. split; [exact H1|].
           destruct (Hin cand (or_introl eq_refl)) as [j [ch [Ej [Ech Ed]]]].
           rewrite Ej, Nat2Z.id, Ech in H1. injection H1 as <-.
           now rewrite H2.
        -- simpl. constructor; [exact IH2|].
           inversion S as [|? ? _ HF]; subst.
           rewrite Forall_forall in HF. apply Forall_forall. intros z Hz.
           apply in_map_iff in Hz as [r' [<- Hr']].
           destruct (Forall2_in_right _ _ _ _ F Hr') as [cand' [Hc' [_ [Hs' _]]]].
           rewrite H2, Hs'. exact (HF cand' Hc').
Qed.

Lemma search_within_stored_witness :
  exists rs ps,
    search 384 Sample.embed (lit "fee?") 2 None
      (Sample.built [Sample.visa; Sample.amex])
    = (Returned rs, Sample.built [Sample.visa; Sample.amex])
    /\ Z.of_nat (length rs) = 2%Z
    /\ NoDup ps
    /\ Forall2 (fun r p =>
                  nth_error (flat_map Card.chunks [Sample.visa; Sample.amex]) p
                  = Some (SearchResult.chunk r)
                  /\ SearchResult.score r
                     = Faiss.sqdist (Sample.embed (lit "fee?"))
                         (Sample.embed (CardChunk.text (SearchResult.chunk r))))
         rs ps
    /\ StronglySorted Qle (map SearchResult.score rs).
Proof.
  apply (search_within_stored 384 Sample.embed [Sample.visa; Sample.amex]
           Sample.fresh (Sample.built [Sample.visa; Sample.amex])
           (lit "fee?") 2).
  - vm_compute. reflexivity.
  - simpl. lia.
Defined.

(** *** After a rejected batch *)

(** X15: the raise of [create_embeddings] on a batch without chunks
    leaves an empty index in place of [None]; a later [search] with
    [k >= 1] then gets only padding labels, and [self.chunks[-1]] on the
    empty chunk list raises [IndexError]. *)
Theorem search_after_empty_batch (model_dim : nat) (embed : str -> vec)
    (cards : list Card.t) (w : world)
    (query : str) (k : Z) (card_filter : option str) :
  flat_map Card.chunks cards = [] ->
  model_dim = dimension (self w) ->
  (1 <= k)%Z ->
  let w' := snd (create_embeddings model_dim embed cards w) in
  index (self w') = Some (Faiss.new (dimension (self w)))
  /\ search model_dim embed query k card_filter w' = (Raised IndexError, w').
Proof.
  intros E Hd Hk. rewrite create_embeddings_run. unfold batch. rewrite E.
  cbn [snd]. split; [reflexivity|].
  rewrite search_run. cbn [self index chunks]. cbv zeta.
  cbn [Faiss.new Faiss.d]. rewrite Hd, Nat.eqb_refl. cbn [negb].
  destruct (Z.leb_spec (if negb (truthy card_filter) then k else k * 3) 0)
    as [Hle|Hpos]; [destruct (negb _); lia|].
  destruct (Z.to_nat (if negb (truthy card_filter) then k else k * 3))
    as [|n] eqn:En; [lia|].
  reflexivity.
Qed.

Lemma search_after_empty_batch_witness :
  index (self (Sample.built [Sample.empty_card])) = Some (Faiss.new 384)
  /\ search 384 Sample.embed (lit "fee?") 2 None
       (Sample.built [Sample.empty_card])
     = (Raised IndexError, Sample.built [Sample.empty_card]).
Proof.
  apply (search_after_empty_batch 384 Sample.embed [Sample.empty_card]
           Sample.fresh (lit "fee?") 2 None); [reflexivity | reflexivity | lia].
Defined.

(** *** Saving and loading *)

(** X16: [save_index] always returns, leaves the instance as it is and
    writes both files: the index file holds [self.index] (the null index
    when none was built) and the metadata file the chunk list.  When an
    index was built, [load_index] reads the two back: loading into any
    instance over the same directory returns [True] and sets that
    instance's index and chunks to the saved ones. *)
Theorem save_then_load (w : world) (s2 : Self) :
  exists w1,
    save_index w = (Returned tt, w1)
    /\ self w1 = self w
    /\ disk w1 = {| faiss_index_bin := Some (Valid (index (self w)));
                    chunks_metadata_pkl := Some (Valid (chunks (self w))) |}
    /\ (forall i, index (self w) = Some i ->
          load_index {| self := s2; disk := disk w1 |}
          = (Returned true,
             {| self := {| index := Some i; chunks := chunks (self w);
                           dimension := dimension s2 |};
                disk := disk w1 |})).
Proof.
  eexists. split; [reflexivity|]. cbn [self disk].
  split; [reflexivity|]. split; [reflexivity|].
  intros i E.
  unfold load_index, bind, get_disk, set_index, set_chunks, lift, ret.
  cbn [disk self faiss_index_bin chunks_metadata_pkl index chunks dimension].
  rewrite E. reflexivity.
Qed.

Lemma save_then_load_witness :
  exists w1,
    save_index (Sample.built [Sample.visa; Sample.amex]) = (Returned tt, w1)
    /\ load_index {| self := init; disk := disk w1 |}
       = (Returned true,
          {| self := self (Sample.built [Sample.visa; Sample.amex]);
             disk := disk w1 |}).
Proof.
  destruct (save_then_load (Sample.built [Sample.visa; Sample.amex]) init)
    as [w1 [E [_ [_ L]]]].
  exists w1. split; [exact E|].
  rewrite (L {| Faiss.d := 384;
                Faiss.xb := map Sample.embed
                              [lit "Fee 0."; lit "Cash back 2%.";
                               lit "Dining 4x points."] |}); reflexivity.
Defined.

(** X17: [load_index] is not all-or-nothing: when the index file reads
    and the metadata file does not, the call raises with [self.index]
    already replaced and [self.chunks] still the old list. *)
Theorem load_index_half_done (w : world) (i : option Faiss.IndexFlatL2) :
  faiss_index_bin (disk w) = Some (Valid i) ->
  chunks_metadata_pkl (disk w) = Some Corrupt ->
  exists w',
    load_index w = (Raised UnpicklingError, w')
    /\ index (self w') = i
    /\ chunks (self w') = chunks (self w)
    /\ disk w' = disk w.
Proof.
  intros E1 E2. unfold load_index, bind, get_disk, set_index, lift. simpl.
  rewrite E1, E2. eexists. repeat split.
Qed.

Lemma load_index_half_done_witness :
  exists w',
    load_index {| self := init;
                  disk := {| faiss_index_bin := Some (Valid (Some (Faiss.new 384)));
                             chunks_metadata_pkl := Some Corrupt |} |}
    = (Raised UnpicklingError, w')
    /\ index (self w') = Some (Faiss.new 384)
    /\ chunks (self w') = chunks init
    /\ disk w' = {| faiss_index_bin := Some (Valid (Some (Faiss.new 384)));
                    chunks_metadata_pkl := Some Corrupt |}.
Proof.
  apply (load_index_half_done
           {| self := init;
              disk := {| faiss_index_bin := Some (Valid (Some (Faiss.new 384)));
                         chunks_metadata_pkl := Some Corrupt |} |}
           (Some (Faiss.new 384))); reflexivity.
Defined.

(** *** Rebuilding *)

(** X18: [create_embeddings] rebuilds from scratch: its outcome and the
    index and chunk list it leaves depend on the batch and the
    configured dimension only, not on what was indexed or loaded
    before. *)
Theorem create_embeddings_from_scratch (model_dim : nat) (embed : str -> vec)
    (cards : list Card.t) (w1 w2 : world) :
  dimension (self w1) = dimension (self w2) ->
  fst (create_embeddings model_dim embed cards w1)
  = fst (create_embeddings model_dim embed cards w2)
  /\ self (snd (create_embeddings model_dim embed cards w1))
     = self (snd (create_embeddings model_dim embed cards w2)).
Proof.
  intros E. rewrite !create_embeddings_run, E.
  destruct (batch cards); [split; reflexivity|].
  destruct (model_dim =? dimension (self w2)); split; reflexivity.
Qed.

Lemma create_embeddings_from_scratch_witness :
  fst (create_embeddings 384 Sample.embed [Sample.amex]
         (Sample.built [Sample.visa]))
  = fst (create_embeddings 384 Sample.embed [Sample.amex] Sample.fresh)
  /\ self (snd (create_embeddings 384 Sample.embed [Sample.amex]
                  (Sample.built [Sample.visa])))
     = self (snd (create_embeddings 384 Sample.embed [Sample.amex] Sample.fresh)).
Proof.
  apply (create_embeddings_from_scratch 384 Sample.embed [Sample.amex]
           (Sample.built [Sample.visa]) Sample.fresh).
  reflexivity.
Defined.

(** X19: with a model whose width is not the configured dimension,
    [create_embeddings] on a batch with chunks raises at [index.add];
    nothing is saved, but [self.chunks] already holds the new batch and
    [self.index] is a new empty index. *)
Theorem create_embeddings_wrong_width (model_dim : nat) (embed : str -> vec)
    (cards : list Card.t) (w : world) :
  flat_map Card.chunks cards <> [] ->
  model_dim <> dimension (self w) ->
  exists w',
    create_embeddings model_dim embed cards w = (Raised AssertionError, w')
    /\ index (self w') = Some (Faiss.new (dimension (self w)))
    /\ chunks (self w') = flat_map Card.chunks cards
    /\ disk w' = disk w.
Proof.
  intros Hne Hd. rewrite create_embeddings_run. unfold batch.
  destruct (flat_map Card.chunks cards); [contradiction|].
  destruct (Nat.eqb_spec model_dim (dimension (self w))); [contradiction|].
  eexists. repeat split.
Qed.

Lemma create_embeddings_wrong_width_witness :
  exists w',
    create_embeddings 768 Sample.embed [Sample.amex] Sample.fresh
    = (Raised AssertionError, w')
    /\ index (self w') = Some (Faiss.new (dimension (self Sample.fresh)))
    /\ chunks (self w') = flat_map Card.chunks [Sample.amex]
    /\ disk w' = disk Sample.fresh.
Proof.
  apply (create_embeddings_wrong_width 768 Sample.embed [Sample.amex]
           Sample.fresh); [discriminate | simpl; lia].
Defined.

(** *** Filters *)

(** X20: the empty string as [card_filter] behaves as no filter at
    all: the same number of candidates is fetched and every chunk
    passes. *)
Theorem search_empty_filter (model_dim : nat) (embed : str -> vec)
    (query : str) (k : Z) (w : world) :
  search model_dim embed query k (Some []) w
  = search model_dim embed query k None w.
Proof.
  rewrite !search_run. destruct (index (self w)); [|reflexivity].
  cbv zeta. cbn [truthy negb]. destruct (negb _); [reflexivity|].
  destruct (_ <=? 0)%Z; [reflexivity|].
  now rewrite collect_results_empty_filter.
Qed.

(** X21: when no chunk's card name contains the filter, [search]
    returns the empty list, not an error. *)
Theorem search_no_match (model_dim : nat) (embed : str -> vec)
    (query : str) (k : Z) (f : str) (w : world) (i : Faiss.IndexFlatL2) :
  index (self w) = Some i ->
  model_dim = Faiss.d i ->
  (1 <= k)%Z ->
  chunks (self w) <> [] ->
  Forall (fun c => contains (lower f) (lower (CardChunk.card_name c)) = false)
    (chunks (self w)) ->
  search model_dim embed query k (Some f) w = (Returned [], w).
Proof.
  intros Hi Hd Hk Hne Hf. rewrite search_run, Hi. cbv zeta.
  rewrite Hd, Nat.eqb_refl. cbn [negb].
  destruct (Z.leb_spec (if negb (truthy (Some f)) then k else k * 3) 0)
    as [Hle|_]; [destruct (negb _); lia|].
  rewrite collect_results_none_pass; auto; [|lia].
  intros [a b] Hin. simpl.
  destruct (In_knn _ _ _ _ _ Hin) as [[-> _]|[j [_ [-> _]]]]; lia.
Qed.

Lemma search_no_match_witness :
  search 384 Sample.embed (lit "fee?") 2 (Some (lit "Discover"))
    (Sample.built [Sample.visa; Sample.amex])
  = (Returned [], Sample.built [Sample.visa; Sample.amex]).
Proof.
  apply (search_no_match 384 Sample.embed (lit "fee?") 2 (lit "Discover")
           (Sample.built [Sample.visa; Sample.amex])
           {| Faiss.d := 384;
              Faiss.xb := map Sample.embed
                            [lit "Fee 0."; lit "Cash back 2%.";
                             lit "Dining 4x points."] |}).
  - vm_compute. reflexivity.
  - reflexivity.
  - lia.
  - discriminate.
  - repeat constructor.
Defined.

(** *** From the PDFs to the index *)

(** X22: whenever [process_all_pdfs] returns at least one card, handing
    its result to [create_embeddings] of a new system (with a model of
    width 384) returns: the batch is never without chunks.  The index
    then holds one vector per chunk, and the chunk count is the sum of
    the cards' [num_chunks]. *)
Theorem pipeline_builds_index (can_open : str -> bool) (title : str -> str)
    (embed : str -> vec) (pdf_dir : option (list pdf_path))
    (out out' : output_dir) (dk : Disk) (cards : list Card.t) :
  process_all_pdfs can_open title pdf_dir out = (Returned cards, out') ->
  cards <> [] ->
  exists w' i,
    create_embeddings 384 embed cards {| self := init; disk := dk |}
    = (Returned tt, w')
    /\ index (self w') = Some i
    /\ chunks (self w') = flat_map Card.chunks cards
    /\ Faiss.ntotal i = list_sum (map Card.num_chunks cards)
    /\ length (chunks (self w')) = list_sum (map Card.num_chunks cards).
Proof.
  intros Hp Hne.
  assert (Hw : Forall well_formed cards).
  { destruct pdf_dir as [[|f files]|];
      try (simpl in Hp; injection Hp as <- _; contradiction).
    unfold process_all_pdfs in Hp.
    apply process_files_spec in Hp as [more [-> [_ H]]]. simpl.
    eapply Forall_impl; [|exact H]. now intros c [Hc _]. }
  assert (Hsum : length (flat_map Card.chunks cards)
                 = list_sum (map Card.num_chunks cards)).
  { rewrite length_flat_map. f_equal. apply map_ext_in. intros c Hc.
    rewrite Forall_forall in Hw. symmetry. now apply Hw. }
  assert (Hb : flat_map Card.chunks cards <> []).
  { destruct cards as [|c cs]; [contradiction|].
    inversion Hw as [|? ? [Hc _ _] _]; subst. simpl.
    destruct (Card.chunks c); [contradiction | discriminate]. }
  rewrite create_embeddings_run. unfold batch.
  destruct (flat_map Card.chunks cards) as [|c0 cs] eqn:B; [contradiction|].
  cbn [self dimension init Nat.eqb]. do 2 eexists.
  split; [reflexivity|]. cbn [self index chunks].
  split; [reflexivity|]. split; [reflexivity|].
  unfold Faiss.ntotal. cbn [Faiss.xb]. rewrite !length_map. auto.
Qed.

Lemma pipeline_builds_index_witness :
  exists cards out',
    process_all_pdfs (fun _ => true) (fun s => s)
      (Some [{| name := lit "visa.pdf"; stem := lit "visa";
                content := Pages [lit "Fee 0. Cash back 2%."] |}])
      []
    = (Returned cards, out')
    /\ cards <> []
    /\ exists w' i,
         create_embeddings 384 Sample.embed cards
           {| self := init; disk := Sample.no_disk |}
         = (Returned tt, w')
         /\ index (self w') = Some i
         /\ chunks (self w') = flat_map Card.chunks cards
         /\ Faiss.ntotal i = list_sum (map Card.num_chunks cards)
         /\ length (chunks (self w')) = list_sum (map Card.num_chunks cards).
Proof.
  do 2 eexists. split; [vm_compute; reflexivity|].
  split; [discriminate|].
  eapply (pipeline_builds_index (fun _ => true) (fun s => s) Sample.embed
            (Some [{| name := lit "visa.pdf"; stem := lit "visa";
                      content := Pages [lit "Fee 0. Cash back 2%."] |}])
            [] _ Sample.no_disk).
  - vm_compute. reflexivity.
  - discriminate.
Defined.

(** * get_context_for_query *)

Module Context.
Import RAGSystem PDFFiles.

Local Open Scope rag_scope.

Section Format.

Variable model_dim : nat.
Variable embed : str -> vec.

(** [f"{x:.2f}"] for a float, left to the caller of the model. *)
Variable format_2f : Q -> str.

Definition sentinel : str := lit "No relevant information found.".

Definition header : str :=
  lit "RELEVANT INFORMATION FROM CREDIT CARD DOCUMENTS:" ++ newline ++ newline.

(** The two lines added for the result of rank [i]. *)
Definition source_entry (i : nat) (result : SearchResult.t) : str :=
  lit "[Source " ++ decimal i ++ lit ": "
  ++ CardChunk.card_name (SearchResult.chunk result)
  ++ lit " - Relevance: " ++ format_2f (SearchResult.relevance result)
  ++ lit "]" ++ newline
  ++ CardChunk.text (SearchResult.chunk result) ++ newline ++ newline.

(** The loop [for i, result in enumerate(results, 1)]. *)
Definition format_results (results : list SearchResult.t) : str :=
  fold_left (fun context p => context ++ source_entry (fst p) (snd p))
    (combine (seq 1 (length results)) results) header.

Definition get_context_for_query (query : str) (k : Z) (card_filter : option str)
  : M str :=
  results <- search model_dim embed query k card_filter ;;
  match results with
  | [] => ret sentinel
  | _ :: _ => ret (format_results results)
  end.

End Format.

End Context.

Module ContextFacts.
Import RAGSystem PDFFiles PDFFilesFacts ChunkerMore Context.

Lemma enumerate_nth {A} (l : list A) : forall s i a,
  nth_error l i = Some a -> In (s + i, a) (combine (seq s (length l)) l).
Proof.
  induction l as [|x l IH]; intros s [|i] a E; try discriminate; simpl in *.
  - injection E as <-. left. now rewrite Nat.add_0_r.
  - right. rewrite Nat.add_succ_r. apply (IH (S s) i a E).
Qed.

Lemma infix_concat (f : nat * SearchResult.t -> str) l p pre :
  In p l -> infix (f p) (pre ++ concat (map f l)).
Proof.
  intros Hin. apply in_split in Hin as [l1 [l2 ->]].
  rewrite map_app, concat_app. simpl.
  exists (pre ++ concat (map f l1)), (concat (map f l2)).
  now rewrite <- !app_assoc.
Qed.

End ContextFacts.

Import Context ContextFacts.

(** X23: [get_context_for_query] raises what [search] raises; it
    returns the fixed sentence when [search] finds nothing; otherwise it
    returns a text other than that sentence, which starts with the
    header and contains, for each result, its numbered source line
    followed by its full text. *)
Theorem get_context_for_query_cases (model_dim : nat) (embed : str -> vec)
    (format_2f : Q -> str) (query : str) (k : Z) (card_filter : option str)
    (w : world) :
  match search model_dim embed query k card_filter w with
  | (Raised e, w') =>
      get_context_for_query model_dim embed format_2f query k card_filter w
      = (Raised e, w')
  | (Returned [], w') =>
      get_context_for_query model_dim embed format_2f query k card_filter w
      = (Returned sentinel, w')
  | (Returned (r0 :: rs), w') =>
      exists rest,
        get_context_for_query model_dim embed format_2f query k card_filter w
        = (Returned (header ++ rest), w')
        /\ header ++ rest <> sentinel
        /\ forall i r, nth_error (r0 :: rs) i = Some r ->
             ChunkerMore.infix (source_entry format_2f (S i) r) (header ++ rest)
  end.
Proof.
  unfold get_context_for_query, bind.
  destruct (search model_dim embed query k card_filter w) as [[[|r0 rs]|e] w'];
    try reflexivity.
  unfold ret, format_results. rewrite fold_left_blocks.
  eexists. split; [reflexivity|]. split; [discriminate|].
  intros i r E.
  apply (infix_concat (fun p => source_entry format_2f (fst p) (snd p))
           _ (S i, r)).
  apply (enumerate_nth (r0 :: rs) 1 i r E).
Qed.

(** * agents/: the orchestrated pipeline *)

(** A value as [json.loads] returns it, with the three operations the
    orchestrator applies to such values. *)
Module Json.

Inductive exn := AttributeError | KeyError | TypeError.

Local Unset Elimination Schemes.

Inductive t :=
| Null
| Bool (b : bool)
| Int (z : Z)
| Float (q : Q)
| Str (s : str)
| List (l : list t)
| Dict (items : list (str * t)).

Local Set Elimination Schemes.

Fixpoint lookup (items : list (str * t)) (key : str) : option t :=
  match items with
  | [] => None
  | (k, v) :: items' =>
      if PDFFiles.str_eqb k key then Some v else lookup items' key
  end.

(** [v.get(key, default)] *)
Definition get (v : t) (key : str) (default : t) : exn + t :=
  match v with
  | Dict items =>
      inr (match lookup items key with Some x => x | None => default end)
  | _ => inl AttributeError
  end.

(** [v[key]] for a string key *)
Definition getitem (v : t) (key : str) : exn + t :=
  match v with
  | Dict items =>
      match lookup items key with
      | Some x => inr x
      | None => inl KeyError
      end
  | _ => inl TypeError
  end.

(** [len(v)] *)
Definition len (v : t) : exn + nat :=
  match v with
  | Str s => inr (length s)
  | List l => inr (length l)
  | Dict items => inr (length items)
  | _ => inl TypeError
  end.

(** Truth value, as in [v or {}]. *)
Definition truthy (v : t) : bool :=
  match v with
  | Null => false
  | Bool b => b
  | Int z => negb (z =? 0)%Z
  | Float q => negb (Qeq_bool q 0)
  | Str s => PDFProcessor.nonempty s
  | List l => match l with [] => false | _ => true end
  | Dict items => match items with [] => false | _ => true end
  end.

End Json.

Module Agents.
Import RAGSystem PDFFiles Context.

Inductive exn :=
| OfJson (e : Json.exn)
| OfRag (e : Py.exn)
| MissingApiKey.

Inductive attempt (X : Type) :=
| Ok (x : X)
| Exc (e : exn).
Arguments Ok {X} x.
Arguments Exc {X} e.

Record usage := { input_tokens : Z; output_tokens : Z }.

(** What [call_claude] returns. *)
Record response := { text : str; resp_usage : usage }.

(** The dictionary an agent's [process] returns. *)
Inductive agent_result :=
| Success (agent : str) (payload : Json.t) (u : usage)
| ParseFailure (agent : str) (raw_response : str) (u : usage)
| NoCards (agent : str).

(** A card to evaluate; its ['name'], when present, is a string. *)
Record card := { name : option str; fields : Json.t }.

(** What [run] returns. *)
Inductive run_result :=
| Failed (error : str) (details : agent_result)
| Completed (spending_analysis benefit_evaluation recommendations : Json.t)
    (api_usage : usage) (cost : Q).

(** The agents share the RAG system, and every [call_claude] is one
    more call to the API. *)
Record state := { calls : nat; rag_system : option world }.

Definition A (X : Type) := state -> attempt X * state.

Definition ret {X} (x : X) : A X := fun s => (Ok x, s).

Definition bind {X Y} (m : A X) (f : X -> A Y) : A Y :=
  fun s => match m s with
           | (Ok x, s') => f x s'
           | (Exc e, s') => (Exc e, s')
           end.

Definition of_json {X} (r : Json.exn + X) : A X :=
  fun s => match r with
           | inr x => (Ok x, s)
           | inl e => (Exc (OfJson e), s)
           end.

Declare Scope agent_scope.
Delimit Scope agent_scope with agent.
Notation "x <- m ;; f" := (bind m (fun x => f))
  (at level 61, m at next level, right associativity) : agent_scope.
Notation "m ;; f" := (bind m (fun _ => f))
  (at level 61, right associativity) : agent_scope.
Local Open Scope agent_scope.

Definition haiku : str := lit "claude-3-5-haiku-20241022".
Definition sonnet : str := lit "claude-3-5-sonnet-20241022".

(** [BaseAgent.__init__]: no agent without an API key. *)
Definition new_agent (api_key : option str) : attempt unit :=
  match api_key with
  | Some (_ :: _) => Ok tt
  | _ => Exc MissingApiKey
  end.

Section Pipeline.

(** [oracle n model prompt max_tokens] is what the [n]-th [call_claude]
    returns: the API's answer, or the ["Error: ..."] text with zero
    usage into which [call_claude] turns an exception. *)
Variable oracle : nat -> str -> str -> Z -> response.

(** [json.loads]; [None] stands for [JSONDecodeError]. *)
Variable json_loads : str -> option Json.t.

(** The three prompt texts, with [json.dumps] of their arguments. *)
Variable spending_prompt : Json.t -> str.
Variable benefit_prompt : Json.t -> list card -> str -> str.
Variable selector_prompt : Json.t -> Json.t -> Json.t -> str.

Variable model_dim : nat.
Variable embed : str -> vec.
Variable format_2f : Q -> str.

Definition call_claude (model prompt : str) (max_tokens : Z) : A response :=
  fun s => (Ok (oracle (calls s) model prompt max_tokens),
            {| calls := S (calls s); rag_system := rag_system s |}).

(** The [try: json.loads ... except JSONDecodeError] of every agent. *)
Definition parse_reply (agent : str) (r : response) : agent_result :=
  match json_loads (text r) with
  | Some v => Success agent v (resp_usage r)
  | None => ParseFailure agent (text r) (resp_usage r)
  end.

Definition spending_process (spending_profile : Json.t) : A agent_result :=
  r <- call_claude haiku (spending_prompt spending_profile) 1500 ;;
  ret (parse_reply (lit "SpendingAnalyzer") r).

(** [f"What are the reward rates and benefits for {card.get('name', 'this card')}?"] *)
Definition query_for (c : card) : str :=
  lit "What are the reward rates and benefits for "
  ++ match name c with Some n => n | None => lit "this card" end
  ++ lit "?".

(** The loop [for card in cards] over the RAG system [w], with
    [rag_context] as accumulated so far. *)
Fixpoint rag_contexts (w : world) (cards : list card) (rag_context : str)
  : Py.outcome str * world :=
  match cards with
  | [] => (Returned rag_context, w)
  | c :: rest =>
      match get_context_for_query model_dim embed format_2f
              (query_for c) 2 (name c) w with
      | (Returned ctx, w') =>
          rag_contexts w' rest (rag_context ++ ctx ++ newline ++ newline)
      | (Raised e, w') => (Raised e, w')
      end
  end.

(** [if self.rag_system: ...] *)
Definition gather_rag_context (cards : list card) : A str :=
  fun s =>
    match rag_system s with
    | None => (Ok [], s)
    | Some w =>
        match rag_contexts w cards [] with
        | (Returned ctx, w') =>
            (Ok ctx, {| calls := calls s; rag_system := Some w' |})
        | (Raised e, w') =>
            (Exc (OfRag e), {| calls := calls s; rag_system := Some w' |})
        end
    end.

Definition benefit_process (spending_analysis : Json.t) (cards : list card)
  : A agent_result :=
  match cards with
  | [] => ret (NoCards (lit "BenefitEvaluator"))
  | _ :: _ =>
      rag_context <- gather_rag_context cards ;;
      r <- call_claude haiku
             (benefit_prompt spending_analysis cards rag_context) 2000 ;;
      ret (parse_reply (lit "BenefitEvaluator") r)
  end.

Definition selector_process (spending_analysis benefit_evaluation
    user_preferences : Json.t) : A agent_result :=
  r <- call_claude sonnet
         (selector_prompt spending_analysis benefit_evaluation user_preferences)
         2500 ;;
  ret (parse_reply (lit "CardSelector") r).

Definition add_usage (a b : usage) : usage :=
  {| input_tokens := input_tokens a + input_tokens b;
     output_tokens := output_tokens a + output_tokens b |}.

(** [(input * 0.0008 + output * 0.004) / 1000] *)
Definition cost_of (u : usage) : Q :=
  ((inject_Z (input_tokens u) * (8 # 10000)
    + inject_Z (output_tokens u) * (4 # 1000)) / 1000)%Q.

(** [OrchestratorAgent.run] *)
Definition run (spending_profile : Json.t) (cards : list card)
    (user_preferences : option Json.t) : A run_result :=
  let total0 := {| input_tokens := 0; output_tokens := 0 |} in
  spending_result <- spending_process spending_profile ;;
  match spending_result with
  | Success _ analysis u1 =>
      let total1 := add_usage total0 u1 in
      of_json (Json.get analysis (lit "total_monthly_spend") (Json.Int 0)) ;;
      benefit_result <- benefit_process analysis cards ;;
      match benefit_result with
      | Success _ evaluation u2 =>
          let total2 := add_usage total1 u2 in
          let preferences :=
            match user_preferences with
            | Some p => if Json.truthy p then p else Json.Dict []
            | None => Json.Dict []
            end in
          selector_result <- selector_process analysis evaluation preferences ;;
          match selector_result with
          | Success _ recommendations u3 =>
              let total3 := add_usage total2 u3 in
              listed <- of_json (Json.getitem recommendations
                                   (lit "recommendations")) ;;
              of_json (Json.len listed) ;;
              ret (Completed analysis evaluation recommendations total3
                     (cost_of total3))
          | _ => ret (Failed (lit "Card selection failed") selector_result)
          end
      | _ => ret (Failed (lit "Benefit evaluation failed") benefit_result)
      end
  | _ => ret (Failed (lit "Spending analysis failed") spending_result)
  end.

End Pipeline.

(** [OrchestratorAgent.__init__]: three agents, each needing the key. *)
Definition new_orchestrator (api_key : option str) (rag : option world)
  : attempt state :=
  match new_agent api_key with
  | Exc e => Exc e
  | Ok _ =>
      match new_agent api_key with
      | Exc e => Exc e
      | Ok _ =>
          match new_agent api_key with
          | Exc e => Exc e
          | Ok _ => Ok {| calls := 0; rag_system := rag |}
          end
      end
  end.

End Agents.

Module AgentsFacts.
Import RAGSystem RagFacts Context Agents.

Local Open Scope agent_scope.

Section Pipeline.

Variable oracle : nat -> str -> str -> Z -> response.
Variable json_loads : str -> option Json.t.
Variable spending_prompt : Json.t -> str.
Variable benefit_prompt : Json.t -> list card -> str -> str.
Variable selector_prompt : Json.t -> Json.t -> Json.t -> str.
Variable model_dim : nat.
Variable embed : str -> vec.
Variable format_2f : Q -> str.

Local Abbreviation run :=
  (Agents.run oracle json_loads spending_prompt benefit_prompt selector_prompt
     model_dim embed format_2f).
Local Abbreviation rag_contexts := (Agents.rag_contexts model_dim embed format_2f).
Local Abbreviation gather_rag_context :=
  (Agents.gather_rag_context model_dim embed format_2f).
Local Abbreviation benefit_process :=
  (Agents.benefit_process oracle json_loads benefit_prompt model_dim embed format_2f).

(** The first reply, which decides whether anything else happens. *)
Definition first_reply (spending_profile : Json.t) (s : state) : response :=
  oracle (calls s) haiku (spending_prompt spending_profile) 1500.

Lemma parse_reply_not_no_cards agent r a :
  parse_reply json_loads agent r <> NoCards a.
Proof. unfold parse_reply. destruct (json_loads (text r)); discriminate. Qed.

(** Gathering the RAG context makes no API call. *)
Lemma gather_calls cards s r s' :
  gather_rag_context cards s = (r, s') -> calls s' = calls s.
Proof.
  unfold Agents.gather_rag_context. destruct (rag_system s) as [w|].
  - destruct (rag_contexts w cards []) as [[ctx|e] w']; now intros [= <- <-].
  - now intros [= <- <-].
Qed.

(** What [benefit_process] leaves, by cases. *)
Lemma benefit_process_cases analysis cards s :
  match benefit_process analysis cards s with
  | (Ok (Success _ _ _), s') | (Ok (ParseFailure _ _ _), s') =>
      cards <> [] /\ calls s' = S (calls s)
  | (Ok (NoCards _), s') => cards = [] /\ s' = s
  | (Exc (OfRag _), s') => cards <> [] /\ calls s' = calls s
  | (Exc _, _) => False
  end.
Proof.
  unfold Agents.benefit_process. destruct cards as [|c cards]; [now split|].
  unfold bind.
  destruct (gather_rag_context (c :: cards) s) as [[ctx|e] s1] eqn:G.
  - apply gather_calls in G. unfold call_claude, ret. cbn [calls].
    unfold parse_reply. destruct (json_loads _); (split; [discriminate | now rewrite G]).
  - pose proof (gather_calls _ _ _ _ G) as C. revert G.
    unfold Agents.gather_rag_context. destruct (rag_system s) as [w|]; [|discriminate].
    destruct (rag_contexts w (c :: cards) []) as [[? |e'] w'];
      intros [= <- <-]. split; [discriminate | reflexivity].
Qed.

End Pipeline.

End AgentsFacts.

Import Agents AgentsFacts.

Local Open Scope agent_scope.

(** A stand-in for the API and for [json.loads], used to run the model
    of the agents on concrete inputs: every reply is the same text, and
    it parses to an object with an empty list of recommendations. *)
Module SampleAgents.

Definition oracle (n : nat) (model prompt : str) (max_tokens : Z) : response :=
  {| text := lit "ok";
     resp_usage := {| input_tokens := 10; output_tokens := 20 |} |}.

Definition reply : Json.t :=
  Json.Dict [(lit "recommendations", Json.List [])].

Definition json_loads (s : str) : option Json.t := Some reply.

Definition prompt1 (_ : Json.t) : str := lit "spending".
Definition prompt2 (_ : Json.t) (_ : list card) (_ : str) : str := lit "benefit".
Definition prompt3 (_ _ _ : Json.t) : str := lit "selector".

Definition format_2f (_ : Q) : str := lit "0.00".

Definition flex : card :=
  {| name := Some (lit "Chase Freedom Flex"); fields := Json.Dict [] |}.

Definition start (rag : option world) : state :=
  {| calls := 0; rag_system := rag |}.

Definition run :=
  Agents.run oracle json_loads prompt1 prompt2 prompt3 384 Sample.embed format_2f.

End SampleAgents.

(** *** A run without cards *)

(** X24: [run] with an empty card list never completes and makes
    exactly one API call: it reports a failed spending analysis, or
    raises [AttributeError] on an analysis that is not an object, or
    reports a failed benefit evaluation for lack of cards. *)
Theorem run_without_cards
    (oracle : nat -> str -> str -> Z -> response)
    (json_loads : str -> option Json.t)
    (spending_prompt : Json.t -> str)
    (benefit_prompt : Json.t -> list card -> str -> str)
    (selector_prompt : Json.t -> Json.t -> Json.t -> str)
    (model_dim : nat) (embed : str -> vec) (format_2f : Q -> str)
    (spending_profile : Json.t) (user_preferences : option Json.t) (s : state) :
  exists r s',
    run oracle json_loads spending_prompt benefit_prompt selector_prompt
      model_dim embed format_2f spending_profile [] user_preferences s
    = (r, s')
    /\ calls s' = S (calls s)
    /\ ((exists d, r = Ok (Failed (lit "Spending analysis failed") d))
        \/ r = Exc (OfJson Json.AttributeError)
        \/ r = Ok (Failed (lit "Benefit evaluation failed")
                     (NoCards (lit "BenefitEvaluator")))).
Proof.
  unfold run, spending_process, bind, call_claude, ret, parse_reply.
  cbn [calls rag_system].
  destruct (json_loads _) as [analysis|].
  - unfold of_json. destruct analysis; cbn [Json.get];
      try (do 2 eexists; split; [reflexivity|]; split; [reflexivity|];
           right; left; reflexivity).
    do 2 eexists. split; [reflexivity|]. split; [reflexivity|].
    right. right. reflexivity.
  - do 2 eexists. split; [reflexivity|]. split; [reflexivity|].
    left. eexists. reflexivity.
Qed.

(** *** When the spending analysis fails *)

(** X25: [run] reports "Spending analysis failed" exactly when the
    first reply is not valid JSON. *)
Theorem run_spending_failure
    (oracle : nat -> str -> str -> Z -> response)
    (json_loads : str -> option Json.t)
    (spending_prompt : Json.t -> str)
    (benefit_prompt : Json.t -> list card -> str -> str)
    (selector_prompt : Json.t -> Json.t -> Json.t -> str)
    (model_dim : nat) (embed : str -> vec) (format_2f : Q -> str)
    (spending_profile : Json.t) (cards : list card)
    (user_preferences : option Json.t) (s : state) :
  json_loads (text (oracle (calls s) haiku (spending_prompt spending_profile) 1500%Z))
  = None
  <-> exists d s',
        run oracle json_loads spending_prompt benefit_prompt selector_prompt
          model_dim embed format_2f spending_profile cards user_preferences s
        = (Ok (Failed (lit "Spending analysis failed") d), s').
Proof.
  unfold run, spending_process. unfold bind at 1 2. unfold call_claude at 1.
  unfold ret at 1. unfold parse_reply. cbn [calls rag_system].
  destruct (json_loads _) as [analysis|]; split;
    [discriminate | | intros _; do 2 eexists; reflexivity | reflexivity].
  - intros [d [s' E]]. exfalso. revert E. unfold bind at 1.
    destruct (of_json _ _) as [[v|e] s1]; [|discriminate].
    unfold bind at 1.
    destruct (benefit_process _ _ _ _ _ _ _ _ s1) as [[[n2 ev u2|n2 raw u2|n2]|e] s2];
      try (unfold ret; intros [= E _]; vm_compute in E; discriminate E);
      try discriminate.
    unfold bind at 1.
    destruct (selector_process _ _ _ _ _ _ s2) as [[[n3 rc u3|n3 raw u3|n3]|e] s3];
      try (unfold ret; intros [= E _]; vm_compute in E; discriminate E);
      try discriminate.
    unfold bind at 1. destruct (of_json _ _) as [[v'|e'] s4]; [|discriminate].
    unfold bind at 1. destruct (of_json _ _) as [[v''|e''] s5]; discriminate.
Qed.

(** *** What a completed run guarantees *)

(** X26: when [run] completes, there was at least one card, exactly
    three API calls were made, the spending analysis is the parsed first
    reply and is an object, the recommendations have a "recommendations"
    entry that has a length, and the cost is computed from the reported
    usage. *)
Theorem run_completed
    (oracle : nat -> str -> str -> Z -> response)
    (json_loads : str -> option Json.t)
    (spending_prompt : Json.t -> str)
    (benefit_prompt : Json.t -> list card -> str -> str)
    (selector_prompt : Json.t -> Json.t -> Json.t -> str)
    (model_dim : nat) (embed : str -> vec) (format_2f : Q -> str)
    (spending_profile : Json.t) (cards : list card)
    (user_preferences : option Json.t) (s s' : state)
    (analysis evaluation recommendations : Json.t) (u : usage) (c : Q) :
  run oracle json_loads spending_prompt benefit_prompt selector_prompt
    model_dim embed format_2f spending_profile cards user_preferences s
  = (Ok (Completed analysis evaluation recommendations u c), s') ->
  cards <> []
  /\ calls s' = 3 + calls s
  /\ json_loads
       (text (oracle (calls s) haiku (spending_prompt spending_profile) 1500%Z))
     = Some analysis
  /\ (exists items, analysis = Json.Dict items)
  /\ (exists listed n,
        Json.getitem recommendations (lit "recommendations") = inr listed
        /\ Json.len listed = inr n)
  /\ c = cost_of u.
Proof.
  unfold run, spending_process. unfold bind at 1 2. unfold call_claude at 1.
  unfold ret at 1. unfold parse_reply at 1. cbn [calls rag_system].
  destruct (json_loads _) as [a|] eqn:J1; [|discriminate].
  unfold bind at 1. unfold of_json at 1.
  destruct (Json.get a _ _) as [e0|v0] eqn:G; [discriminate|].
  unfold bind at 1.
  pose proof (benefit_process_cases oracle json_loads benefit_prompt model_dim
                embed format_2f a cards
                {| calls := S (calls s); rag_system := rag_system s |}) as B.
  destruct (benefit_process _ _ _ _ _ _ _ _ _)
    as [[[n2 ev u2|n2 raw u2|n2]|e] s2]; try discriminate.
  destruct B as [Hne C2]. cbn [calls] in C2.
  unfold bind at 1. unfold selector_process, bind at 1, call_claude, ret at 1.
  unfold parse_reply.
  destruct (json_loads (text (oracle (calls s2) _ _ _))) as [rc|];
    [|discriminate].
  unfold bind at 1. unfold of_json at 1.
  destruct (Json.getitem rc _) as [e1|listed] eqn:G1; [discriminate|].
  unfold bind at 1. unfold of_json at 1.
  destruct (Json.len listed) as [e2|n] eqn:L; [discriminate|].
  unfold ret. intros [= <- <- <- <- <- <-]. cbn [calls].
  split; [exact Hne|]. split; [lia|]. split; [reflexivity|].
  split; [destruct a; try discriminate; eauto|].
  split; [eauto | reflexivity].
Qed.

Lemma run_completed_witness :
  [SampleAgents.flex] <> []
  /\ calls {| calls := 3; rag_system := None |} = 3 + calls (SampleAgents.start None)
  /\ SampleAgents.json_loads
       (text (SampleAgents.oracle (calls (SampleAgents.start None)) haiku
                (SampleAgents.prompt1 (Json.Dict [])) 1500%Z))
     = Some SampleAgents.reply
  /\ (exists items, SampleAgents.reply = Json.Dict items)
  /\ (exists listed n,
        Json.getitem SampleAgents.reply (lit "recommendations") = inr listed
        /\ Json.len listed = inr n)
  /\ cost_of {| input_tokens := 30; output_tokens := 60 |}
     = cost_of {| input_tokens := 30; output_tokens := 60 |}.
Proof.
  apply (run_completed SampleAgents.oracle SampleAgents.json_loads
           SampleAgents.prompt1 SampleAgents.prompt2 SampleAgents.prompt3
           384 Sample.embed SampleAgents.format_2f
           (Json.Dict []) [SampleAgents.flex] None
           (SampleAgents.start None) {| calls := 3; rag_system := None |}
           SampleAgents.reply SampleAgents.reply SampleAgents.reply
           {| input_tokens := 30; output_tokens := 60 |}
           (cost_of {| input_tokens := 30; output_tokens := 60 |})).
  reflexivity.
Defined.

Module AgentsRagFacts.
Import RAGSystem RagFacts Context Agents.

(** The world that a rejected batch without chunks leaves behind. *)
Definition emptied (dim : nat) (dk : Disk) : world :=
  {| self := {| index := Some (Faiss.new dim); chunks := []; dimension := dim |};
     disk := dk |}.

Lemma create_embeddings_emptied model_dim embed cards w :
  flat_map Card.chunks cards = [] ->
  snd (create_embeddings model_dim embed cards w)
  = emptied (dimension (self w)) (disk w).
Proof.
  intros E. rewrite create_embeddings_run. unfold batch. now rewrite E.
Qed.

Lemma search_emptied model_dim embed dim dk query k card_filter :
  model_dim = dim -> (1 <= k)%Z ->
  search model_dim embed query k card_filter (emptied dim dk)
  = (Raised IndexError, emptied dim dk).
Proof.
  intros Hd Hk. rewrite search_run. unfold emptied at 1 2 3.
  cbn [self index chunks]. cbv zeta. cbn [Faiss.new Faiss.d].
  rewrite Hd, Nat.eqb_refl. cbn [negb].
  destruct (Z.leb_spec (if negb (truthy card_filter) then k else k * 3) 0)
    as [Hle|Hpos]; [destruct (negb _); lia|].
  destruct (Z.to_nat (if negb (truthy card_filter) then k else k * 3))
    as [|n] eqn:En; [lia|].
  reflexivity.
Qed.

Lemma search_unloaded model_dim embed query k card_filter w :
  index (self w) = None ->
  search model_dim embed query k card_filter w = (Returned [], w).
Proof. intros E. now rewrite search_run, E. Qed.

Lemma rag_contexts_unloaded model_dim embed format_2f w cards : forall acc,
  index (self w) = None ->
  rag_contexts model_dim embed format_2f w cards acc
  = (Returned (acc ++ concat (map (fun _ => sentinel ++ PDFFiles.newline
                                             ++ PDFFiles.newline) cards)), w).
Proof.
  induction cards as [|c cards IH]; intros acc Hi; simpl.
  - now rewrite app_nil_r.
  - unfold get_context_for_query, RAGSystem.bind.
    rewrite search_unloaded by exact Hi. unfold RAGSystem.ret.
    rewrite IH by exact Hi. now rewrite <- !app_assoc.
Qed.

End AgentsRagFacts.

Import AgentsRagFacts.

(** *** The agents and the RAG system *)

(** X27: if the RAG system handed to the orchestrator was left by a
    [create_embeddings] call on a batch without chunks, every [run] with
    at least one card whose spending analysis parses to an object raises
    [IndexError] out of the benefit evaluator, after the one API call of
    the spending analysis. *)
Theorem run_after_empty_batch
    (oracle : nat -> str -> str -> Z -> response)
    (json_loads : str -> option Json.t)
    (spending_prompt : Json.t -> str)
    (benefit_prompt : Json.t -> list card -> str -> str)
    (selector_prompt : Json.t -> Json.t -> Json.t -> str)
    (model_dim : nat) (embed : str -> vec) (format_2f : Q -> str)
    (batch : list Card.t) (w0 : world)
    (spending_profile : Json.t) (c : card) (cards : list card)
    (user_preferences : option Json.t) (s : state)
    (items : list (str * Json.t)) :
  flat_map Card.chunks batch = [] ->
  model_dim = dimension (self w0) ->
  rag_system s = Some (snd (create_embeddings model_dim embed batch w0)) ->
  json_loads
    (text (oracle (calls s) haiku (spending_prompt spending_profile) 1500%Z))
  = Some (Json.Dict items) ->
  exists s',
    run oracle json_loads spending_prompt benefit_prompt selector_prompt
      model_dim embed format_2f spending_profile (c :: cards) user_preferences s
    = (Exc (OfRag IndexError), s')
    /\ calls s' = S (calls s).
Proof.
  intros Hb Hd Hr J.
  rewrite create_embeddings_emptied in Hr by exact Hb.
  unfold run, spending_process. unfold bind at 1 2. unfold call_claude at 1.
  unfold ret at 1. unfold parse_reply. cbn [calls rag_system]. rewrite J.
  unfold bind at 1. unfold of_json at 1. cbn [Json.get].
  unfold bind at 1. unfold benefit_process. unfold bind at 1.
  unfold gather_rag_context. cbn [rag_system calls]. rewrite Hr.
  cbn [rag_contexts]. unfold get_context_for_query, RAGSystem.bind.
  rewrite search_emptied by (auto; lia).
  eexists. split; reflexivity.
Qed.

Lemma run_after_empty_batch_witness :
  exists s',
    SampleAgents.run (Json.Dict []) [SampleAgents.flex] None
      (SampleAgents.start (Some (Sample.built [Sample.empty_card])))
    = (Exc (OfRag IndexError), s')
    /\ calls s'
       = S (calls (SampleAgents.start (Some (Sample.built [Sample.empty_card])))).
Proof.
  apply (run_after_empty_batch SampleAgents.oracle SampleAgents.json_loads
           SampleAgents.prompt1 SampleAgents.prompt2 SampleAgents.prompt3
           384 Sample.embed SampleAgents.format_2f
           [Sample.empty_card] Sample.fresh
           (Json.Dict []) SampleAgents.flex [] None
           (SampleAgents.start (Some (Sample.built [Sample.empty_card])))
           [(lit "recommendations", Json.List [])]);
    reflexivity.
Defined.

(** X28: a RAG system on which nothing was created or loaded never
    makes the benefit evaluator fail: every card's context is the fixed
    "nothing found" sentence, the RAG system is left as it was, and the
    evaluator goes on to its one API call. *)
Theorem benefit_process_unloaded_rag
    (oracle : nat -> str -> str -> Z -> response)
    (json_loads : str -> option Json.t)
    (benefit_prompt : Json.t -> list card -> str -> str)
    (model_dim : nat) (embed : str -> vec) (format_2f : Q -> str)
    (analysis : Json.t) (c : card) (cards : list card) (s : state) (w : world) :
  rag_system s = Some w ->
  index (self w) = None ->
  let rag_context :=
    concat (map (fun _ => sentinel ++ PDFFiles.newline ++ PDFFiles.newline)
              (c :: cards)) in
  benefit_process oracle json_loads benefit_prompt model_dim embed format_2f
    analysis (c :: cards) s
  = (Ok (parse_reply json_loads (lit "BenefitEvaluator")
           (oracle (calls s) haiku
              (benefit_prompt analysis (c :: cards) rag_context) 2000%Z)),
     {| calls := S (calls s); rag_system := Some w |}).
Proof.
  intros Hr Hi rag_context. unfold benefit_process. unfold bind at 1.
  unfold gather_rag_context. rewrite Hr.
  rewrite rag_contexts_unloaded by exact Hi. reflexivity.
Qed.

Lemma benefit_process_unloaded_rag_witness :
  benefit_process SampleAgents.oracle SampleAgents.json_loads
    SampleAgents.prompt2 384 Sample.embed SampleAgents.format_2f
    (Json.Dict []) [SampleAgents.flex] (SampleAgents.start (Some Sample.fresh))
  = (Ok (parse_reply SampleAgents.json_loads (lit "BenefitEvaluator")
           (SampleAgents.oracle 0 haiku
              (SampleAgents.prompt2 (Json.Dict []) [SampleAgents.flex]
                 (concat (map (fun _ => sentinel ++ PDFFiles.newline
                                         ++ PDFFiles.newline)
                            [SampleAgents.flex]))) 2000%Z)),
     {| calls := 1; rag_system := Some Sample.fresh |}).
Proof.
  apply (benefit_process_unloaded_rag SampleAgents.oracle SampleAgents.json_loads
           SampleAgents.prompt2 384 Sample.embed SampleAgents.format_2f
           (Json.Dict []) SampleAgents.flex [] (SampleAgents.start (Some Sample.fresh))
           Sample.fresh); reflexivity.
Defined.
